(** * Propositional-logic tools of [app.py]: truth tables and equivalence

    A shallow embedding of the formula functions of [src/app.py]
    ([extract_variables], [generate_truth_combinations], [evaluate_formula],
    the truth-table view and the equivalence view) together with the parts of
    the Python runtime they lean on: [re.sub] with a word-boundary pattern,
    [str.replace], and [eval] on the Boolean fragment of Python expressions
    the substituted text can land in.

    Python strings are sequences of Unicode code points; a code point is an
    [N], a string a [list N].  Dictionaries keep insertion order and are
    association lists with unique keys. *)

From Stdlib Require Import ZArith NArith Lia Ascii String DecimalString.
From stdpp Require Import base numbers option list sorting gmap sets.

#[local] Set Warnings "-clear-no-such-hyp".
Local Open Scope N_scope.

(** ** Strings *)

Abbreviation str := (list N).

(** Literals are written as Rocq strings (UTF-8 bytes) and decoded to code
    points; [acc] holds the bits of a multi-byte scalar value, [k] the number
    of continuation bytes still to come. *)
Fixpoint utf8_decode (acc : N) (k : nat) (s : string) : str :=
  match s with
  | EmptyString => []
  | String a s' =>
      let b := N_of_ascii a in
      match k with
      | O => if b <? 128 then b :: utf8_decode 0 0 s'
             else if b <? 224 then utf8_decode (b - 192) 1 s'
             else if b <? 240 then utf8_decode (b - 224) 2 s'
             else utf8_decode (b - 240) 3 s'
      | S O => (acc * 64 + (b - 128)) :: utf8_decode 0 0 s'
      | S k' => utf8_decode (acc * 64 + (b - 128)) k' s'
      end
  end.

Definition u (s : string) : str := utf8_decode 0 0 s.

Fixpoint str_eqb (a b : str) : bool :=
  match a, b with
  | [], [] => true
  | x :: a', y :: b' => (x =? y) && str_eqb a' b'
  | _, _ => false
  end.

(** The code points the program names. *)
Definition c_p : N := 112.
Definition c_q : N := 113.
Definition c_r : N := 114.
Definition c_s : N := 115.
Definition c_not : N := 172.     (* ¬ *)
Definition c_and : N := 8743.    (* ∧ *)
Definition c_or : N := 8744.     (* ∨ *)
Definition c_imp : N := 8594.    (* → *)
Definition c_iff : N := 8596.    (* ↔ *)
Definition c_lpar : N := 40.
Definition c_rpar : N := 41.

Definition s_T : str := [84].
Definition s_F : str := [70].
Definition s_True : str := [84; 114; 117; 101].
Definition s_False : str := [70; 97; 108; 115; 101].

(** ** Outcomes

    [Raises] is a Python exception reaching the caller; [Unmodelled] marks an
    input on which the Python runtime is outside the fragment embedded here,
    so nothing is claimed about it. *)
Inductive outcome (A : Type) : Type :=
  | Returns (a : A)
  | Raises
  | Unmodelled.
Arguments Returns {A} a.
Arguments Raises {A}.
Arguments Unmodelled {A}.

(** ** [re.sub(r'\b' + re.escape(var) + r'\b', repl, temp)] *)

(** [\w] on ASCII: letters, digits and the underscore.  Of the code points
    above 127 the five connective symbols are mathematical symbols and not
    word characters; any other one stays in the text up to [eval], where
    [py_eval] answers [Unmodelled]. *)
Definition is_word (c : N) : bool :=
  ((48 <=? c) && (c <=? 57)) || ((65 <=? c) && (c <=? 90))
  || (c =? 95) || ((97 <=? c) && (c <=? 122)).

Definition word_at (o : option N) : bool := from_option is_word false o.

(** [\b] between the character [prev] and the text [t] that follows it. *)
Definition at_boundary (prev : option N) (t : str) : bool :=
  xorb (word_at prev) (word_at (head t)).

Fixpoint starts_with (lit t : str) : bool :=
  match lit, t with
  | [], _ => true
  | x :: lit', y :: t' => (x =? y) && starts_with lit' t'
  | _ :: _, [] => false
  end.

Definition match_here (lit : str) (prev : option N) (t : str) : bool :=
  at_boundary prev t && starts_with lit t
  && at_boundary (from_option Some prev (last lit)) (drop (length lit) t).

(** Leftmost non-overlapping matches, scanning from the left.  [skip] counts
    the characters of the current match still to be passed over; an empty
    match (empty [lit]) is followed by the character it stands before. *)
Fixpoint re_sub_from (lit repl : str) (prev : option N) (skip : nat) (t : str) : str :=
  match t with
  | [] => match skip with
          | O => if match_here lit prev [] then repl else []
          | S _ => []
          end
  | c :: t' =>
      match skip with
      | S k => re_sub_from lit repl (Some c) k t'
      | O =>
          if match_here lit prev t
          then repl ++ match lit with
                       | [] => c :: re_sub_from lit repl (Some c) 0 t'
                       | _ :: lit' => re_sub_from lit repl (Some c) (length lit') t'
                       end
          else c :: re_sub_from lit repl (Some c) 0 t'
      end
  end.

Definition re_sub (lit repl t : str) : str := re_sub_from lit repl None 0 t.

(** ** [temp.replace(old, new)] for a one-character [old] *)
Definition replace (old : N) (new : str) (t : str) : str :=
  flat_map (fun c => if c =? old then new else [c]) t.

(** ** [eval] on the Boolean fragment *)

Inductive token : Type :=
  | TTrue | TFalse | TNot | TAnd | TOr | TLe | TEq | TLpar | TRpar.

(** Characters whose meaning depends on context (string quotes, [#],
    backslash, control characters other than the tab, anything above 126). *)
Definition opaque_char (c : N) : bool :=
  (c =? 34) || (c =? 35) || (c =? 39) || (c =? 92)
  || ((c <? 32) && negb (c =? 9)) || (126 <? c).

(** Characters no Python token contains outside strings and comments:
    [$], [?] and the backquote. *)
Definition illegal_char (c : N) : bool :=
  (c =? 36) || (c =? 63) || (c =? 96).

Definition keyword (w : str) : option token :=
  if str_eqb w s_True then Some TTrue
  else if str_eqb w s_False then Some TFalse
  else if str_eqb w [110; 111; 116] then Some TNot
  else if str_eqb w [97; 110; 100] then Some TAnd
  else if str_eqb w [111; 114] then Some TOr
  else None.

(** A pending word [w] is closed when a non-word character or the end of the
    text is reached. *)
Definition emit_word (w : str) (rest : option (list token)) : option (list token) :=
  match w with
  | [] => rest
  | _ :: _ => match keyword w, rest with
              | Some k, Some ts => Some (k :: ts)
              | _, _ => None
              end
  end.

(** [None]: a token outside the fragment (a name other than the five
    keywords, a number, another operator). *)
Fixpoint lex (w : str) (s : str) : option (list token) :=
  match s with
  | [] => emit_word w (Some [])
  | c :: s' =>
      if is_word c then lex (w ++ [c]) s'
      else emit_word w
        (if (c =? 32) || (c =? 9) then lex [] s'
         else if c =? 40 then cons TLpar <$> lex [] s'
         else if c =? 41 then cons TRpar <$> lex [] s'
         else if c =? 60 then            (* [<] must be the start of [<=] *)
           match s' with
           | c' :: s'' => if c' =? 61 then cons TLe <$> lex [] s'' else None
           | [] => None
           end
         else if c =? 61 then            (* [=] must be the start of [==] *)
           match s' with
           | c' :: s'' => if c' =? 61 then cons TEq <$> lex [] s'' else None
           | [] => None
           end
         else None)
  end.

Definition tokenize (s : str) : option (list token) := lex [] s.

Inductive cmpop : Type := Le | Eq.

(** The expression trees of the fragment.  [ECompare e (Link op1 e1 (Link
    op2 e2 ...))] is the comparison chain [e op1 e1 op2 e2 ...]. *)
Inductive pyexpr : Type :=
  | EConst (b : bool)
  | ENot (e : pyexpr)
  | EAnd (e1 e2 : pyexpr)
  | EOr (e1 e2 : pyexpr)
  | ECompare (left : pyexpr) (chain : links)
with links : Type :=
  | NoLink
  | Link (op : cmpop) (e : pyexpr) (rest : links).

Inductive parsed (A : Type) : Type :=
  | Parsed (a : A) (rest : list token)
  | SyntaxError
  | Outside        (* a call [f(...)] or the empty tuple [()] *)
  | OutOfFuel.
Arguments Parsed {A} a rest.
Arguments SyntaxError {A}.
Arguments Outside {A}.
Arguments OutOfFuel {A}.

Definition pbind {A B} (x : parsed A) (k : A -> list token -> parsed B) : parsed B :=
  match x with
  | Parsed a rest => k a rest
  | SyntaxError => SyntaxError
  | Outside => Outside
  | OutOfFuel => OutOfFuel
  end.

(** Python's grammar restricted to the nine tokens:
<<
    disjunction: conjunction ('or' conjunction)*
    conjunction: inversion ('and' inversion)*
    inversion:   'not' inversion | comparison
    comparison:  primary (('<=' | '==') primary)*
    primary:     atom            (a following '(' is a call)
    atom:        'True' | 'False' | '(' disjunction ')'
>>
    Comparisons bind tighter than [not], [not] tighter than [and], [and]
    tighter than [or]. *)
Fixpoint p_disj (n : nat) (ts : list token) : parsed pyexpr :=
  match n with
  | O => OutOfFuel
  | S n =>
      pbind (p_conj n ts) (fun e r =>
        match r with
        | TOr :: r' => pbind (p_disj n r') (fun e' r'' => Parsed (EOr e e') r'')
        | _ => Parsed e r
        end)
  end
with p_conj (n : nat) (ts : list token) : parsed pyexpr :=
  match n with
  | O => OutOfFuel
  | S n =>
      pbind (p_inv n ts) (fun e r =>
        match r with
        | TAnd :: r' => pbind (p_conj n r') (fun e' r'' => Parsed (EAnd e e') r'')
        | _ => Parsed e r
        end)
  end
with p_inv (n : nat) (ts : list token) : parsed pyexpr :=
  match n with
  | O => OutOfFuel
  | S n =>
      match ts with
      | TNot :: r => pbind (p_inv n r) (fun e r' => Parsed (ENot e) r')
      | _ => p_comp n ts
      end
  end
with p_comp (n : nat) (ts : list token) : parsed pyexpr :=
  match n with
  | O => OutOfFuel
  | S n =>
      pbind (p_atom n ts) (fun e r =>
        pbind (p_chain n r) (fun c r' =>
          Parsed (match c with NoLink => e | Link _ _ _ => ECompare e c end) r'))
  end
with p_chain (n : nat) (ts : list token) : parsed links :=
  match n with
  | O => OutOfFuel
  | S n =>
      match ts with
      | TLe :: r =>
          pbind (p_atom n r) (fun e r' =>
            pbind (p_chain n r') (fun c r'' => Parsed (Link Le e c) r''))
      | TEq :: r =>
          pbind (p_atom n r) (fun e r' =>
            pbind (p_chain n r') (fun c r'' => Parsed (Link Eq e c) r''))
      | _ => Parsed NoLink ts
      end
  end
with p_atom (n : nat) (ts : list token) : parsed pyexpr :=
  match n with
  | O => OutOfFuel
  | S n =>
      pbind
        (match ts with
         | TTrue :: r => Parsed (EConst true) r
         | TFalse :: r => Parsed (EConst false) r
         | TLpar :: TRpar :: _ => Outside
         | TLpar :: r =>
             pbind (p_disj n r) (fun e r' =>
               match r' with
               | TRpar :: r'' => Parsed e r''
               | _ => SyntaxError
               end)
         | _ => SyntaxError
         end)
        (fun e r => match r with
                    | TLpar :: _ => Outside
                    | _ => Parsed e r
                    end)
  end.

Definition parse_fuel (ts : list token) : nat := 6 * length ts + 6.

(** The whole text must be one expression. *)
Definition py_parse (ts : list token) : parsed pyexpr :=
  pbind (p_disj (parse_fuel ts) ts) (fun e r =>
    match r with
    | [] => Parsed e []
    | _ :: _ => SyntaxError
    end).

Definition compare (op : cmpop) (a b : bool) : bool :=
  match op with
  | Le => implb a b      (* False <= x, True <= True *)
  | Eq => eqb a b
  end.

(** Every value of the fragment is a [bool], on which [and], [or] and [not]
    are the Boolean operations; [a op1 b op2 c] is [a op1 b and b op2 c]. *)
Fixpoint py_value (e : pyexpr) : bool :=
  match e with
  | EConst b => b
  | ENot e => negb (py_value e)
  | EAnd e1 e2 => py_value e1 && py_value e2
  | EOr e1 e2 => py_value e1 || py_value e2
  | ECompare e chain => chain_value (py_value e) chain
  end
with chain_value (left : bool) (chain : links) : bool :=
  match chain with
  | NoLink => true
  | Link op e rest =>
      let v := py_value e in compare op left v && chain_value v rest
  end.

Definition py_eval (s : str) : outcome bool :=
  if existsb opaque_char s then Unmodelled
  else if existsb illegal_char s then Raises
  else match tokenize s with
       | None => Unmodelled
       | Some ts =>
           match py_parse ts with
           | Parsed e _ => Returns (py_value e)
           | SyntaxError => Raises
           | Outside | OutOfFuel => Unmodelled
           end
       end.

(** ** Dictionaries *)

Abbreviation dict := (list (str * str)).

Fixpoint dict_get (d : dict) (k : str) : option str :=
  match d with
  | [] => None
  | (k', v) :: d' => if str_eqb k' k then Some v else dict_get d' k
  end.

(** [d[k] = v]: an existing key keeps its place, a new one goes last. *)
Fixpoint dict_set (k v : str) (d : dict) : dict :=
  match d with
  | [] => [(k, v)]
  | (k', v') :: d' =>
      if str_eqb k' k then (k', v) :: d' else (k', v') :: dict_set k v d'
  end.

(** ** The program *)

Definition is_variable (c : N) : bool :=
  (c =? c_p) || (c =? c_q) || (c =? c_r) || (c =? c_s).

(** Python orders strings lexicographically by code point. *)
Fixpoint str_leb (a b : str) : bool :=
  match a, b with
  | [], _ => true
  | _ :: _, [] => false
  | x :: a', y :: b' => (x <? y) || ((x =? y) && str_leb a' b')
  end.

Definition str_le (a b : str) : Prop := str_leb a b = true.

#[global] Instance str_le_dec (a b : str) : Decision (str_le a b).
Proof. unfold str_le. apply _. Defined.

Definition sorted (s : gset str) : list str := merge_sort str_le (elements s).

(** [extract_variables]: iterating over a string yields its characters as
    one-character strings. *)
Definition variable_set (formula : str) : gset str :=
  foldl (fun variables char =>
           if is_variable char then {[ [char] ]} ∪ variables else variables)
        ∅ formula.

Definition extract_variables (formula : str) : list str :=
  sorted (variable_set formula).

(** [generate_truth_combinations]: the assignment of row [i].  [j] ranges
    below [len(variables)], so [variables[j]] is always in range. *)
Definition combination (variables : list str) (n : nat) (i : Z) : dict :=
  foldl (fun combo j =>
           let bit := Z.land (Z.shiftr i (Z.of_nat (n - 1 - j))) 1 in
           dict_set (variables !!! j) (if (bit =? 0)%Z then s_F else s_T) combo)
        [] (seq 0 n).

Definition generate_truth_combinations (variables : list str) : list dict :=
  let n := length variables in
  (fun i => combination variables n (Z.of_nat i)) <$> seq 0 (2 ^ n).

(** The text after the loop over [truth_values.items()]. *)
Definition substitute (formula : str) (truth_values : dict) : str :=
  foldl (fun temp '(var, val) =>
           re_sub var (if str_eqb val s_T then s_True else s_False) temp)
        formula truth_values.

Definition connectives (temp : str) : str :=
  let temp := replace c_not (u "not ") temp in
  let temp := replace c_and (u " and ") temp in
  let temp := replace c_or (u " or ") temp in
  let temp := replace c_imp (u " <= ") temp in
  replace c_iff (u " == ") temp.

(** [evaluate_formula]; [Raises] is the [ValueError] of the [except] branch. *)
Definition evaluate_formula (formula : str) (truth_values : dict) : outcome str :=
  match py_eval (connectives (substitute formula truth_values)) with
  | Returns result => Returns (if result then s_T else s_F)
  | Raises => Raises
  | Unmodelled => Unmodelled
  end.

(** [[evaluate_formula(formula, combo) for combo in combinations]]: the first
    exception ends the comprehension. *)
Fixpoint evaluate_rows (formula : str) (combinations : list dict) : outcome (list str) :=
  match combinations with
  | [] => Returns []
  | combo :: rest =>
      match evaluate_formula formula combo with
      | Returns res =>
          match evaluate_rows formula rest with
          | Returns results => Returns (res :: results)
          | Raises => Raises
          | Unmodelled => Unmodelled
          end
      | Raises => Raises
      | Unmodelled => Unmodelled
      end
  end.

(** What a view puts on the page. *)
Inductive message : Type :=
  | NoVariables      (* 公式中未包含有效变元（需包含 p/q/r/s）！ *)
  | FormatError.     (* the ValueError of evaluate_formula, shown by st.error *)

Inductive view (A : Type) : Type :=
  | Blank                      (* the [if formula:] guard is false *)
  | ErrorShown (m : message)
  | Shown (a : A)
  | ViewUnmodelled.
Arguments Blank {A}.
Arguments ErrorShown {A} m.
Arguments Shown {A} a.
Arguments ViewUnmodelled {A}.

Inductive formula_type : Type :=
  | Tautology        (* 重言式 *)
  | Contradiction    (* 矛盾式 *)
  | Contingent.      (* 可满足式（但不是重言式） *)

Record truth_table : Type := {
  tt_variables : list str;
  tt_combinations : list dict;
  tt_results : list str;
  tt_table_data : list dict;
  tt_formula_type : formula_type
}.

Definition truth_table_generator (formula : str) : view truth_table :=
  match formula with
  | [] => Blank
  | _ :: _ =>
      let variables := extract_variables formula in
      match variables with
      | [] => ErrorShown NoVariables
      | _ :: _ =>
          let combinations := generate_truth_combinations variables in
          match evaluate_rows formula combinations with
          | Returns results =>
              let table_data :=
                zip_with (fun combo res => dict_set formula res combo)
                         combinations results in
              Shown {| tt_variables := variables;
                       tt_combinations := combinations;
                       tt_results := results;
                       tt_table_data := table_data;
                       tt_formula_type :=
                         if forallb (fun res => str_eqb res s_T) results then Tautology
                         else if forallb (fun res => str_eqb res s_F) results then Contradiction
                         else Contingent |}
          | Raises => ErrorShown FormatError
          | Unmodelled => ViewUnmodelled
          end
      end
  end.

(** [sep.join(parts)] and [str(n)]. *)
Fixpoint join (sep : str) (parts : list str) : str :=
  match parts with
  | [] => []
  | [x] => x
  | x :: rest => x ++ sep ++ join sep rest
  end.

Definition str_of_nat (n : nat) : str :=
  u (NilEmpty.string_of_uint (Nat.to_uint n)).

Record equivalence_report : Type := {
  er_all_vars : list str;
  er_combinations : list dict;
  er_results1 : list str;
  er_results2 : list str;
  er_table_data : list dict;
  er_differences : list (nat * dict * str * str);
  er_is_equivalent : bool;
  er_warnings : list str
}.

(** The loop over [enumerate(zip(combinations, results1, results2))];
    [idx] is the index of the first row of [rows]. *)
Fixpoint compare_rows (formula1 formula2 : str) (idx : nat)
    (rows : list (dict * (str * str))) : list dict * list (nat * dict * str * str) :=
  match rows with
  | [] => ([], [])
  | (combo, (res1, res2)) :: rest =>
      let row := dict_set formula1 res1 combo in
      let row := dict_set formula2 res2 row in
      let row := dict_set (u "是否一致")
                          (if str_eqb res1 res2 then u "✅" else u "❌") row in
      let '(table_data, differences) := compare_rows formula1 formula2 (S idx) rest in
      (row :: table_data,
       if str_eqb res1 res2 then differences
       else (idx, combo, res1, res2) :: differences)
  end.

(** [f"第 {idx + 1} 组：{combo_str} → 公式1={res1}，公式2={res2}"] *)
Definition warning (d : nat * dict * str * str) : str :=
  let '(idx, combo, res1, res2) := d in
  let combo_str := join (u ", ") ((fun kv => kv.1 ++ u "=" ++ kv.2) <$> combo) in
  u "第 " ++ str_of_nat (idx + 1) ++ u " 组：" ++ combo_str
    ++ u " → 公式1=" ++ res1 ++ u "，公式2=" ++ res2.

Definition formula_equivalence (formula1 formula2 : str) : view equivalence_report :=
  match formula1, formula2 with
  | _ :: _, _ :: _ =>
      let vars1 : gset str := list_to_set (extract_variables formula1) in
      let vars2 : gset str := list_to_set (extract_variables formula2) in
      let all_vars := sorted (vars1 ∪ vars2) in
      let combinations := generate_truth_combinations all_vars in
      match evaluate_rows formula1 combinations with
      | Returns results1 =>
          match evaluate_rows formula2 combinations with
          | Returns results2 =>
              let '(table_data, differences) :=
                compare_rows formula1 formula2 0
                             (zip combinations (zip results1 results2)) in
              Shown {| er_all_vars := all_vars;
                       er_combinations := combinations;
                       er_results1 := results1;
                       er_results2 := results2;
                       er_table_data := table_data;
                       er_differences := differences;
                       er_is_equivalent := (length differences =? 0)%nat;
                       er_warnings := warning <$> differences |}
          | Raises => ErrorShown FormatError
          | Unmodelled => ViewUnmodelled
          end
      | Raises => ErrorShown FormatError
      | Unmodelled => ViewUnmodelled
      end
  | _, _ => Blank
  end.


(** ** Notions the statements use *)

(** The canonical order of the variables. *)
Definition canonical : list N := [c_p; c_q; c_r; c_s].

(** An assignment: a dictionary whose keys are variable names.  A value is
    read the way [evaluate_formula] reads it: ['T'] is true, anything else
    false. *)
Definition variable_name (k : str) : bool :=
  match k with
  | [c] => is_variable c
  | _ => false
  end.

Definition assignment (tv : dict) : Prop :=
  NoDup tv.*1 ∧ Forall (fun k => variable_name k = true) tv.*1.

Definition truth (tv : dict) (c : N) : option bool :=
  (fun val => str_eqb val s_T) <$> dict_get tv [c].

Definition word (b : bool) : str := if b then s_True else s_False.
Definition letter (b : bool) : str := if b then s_T else s_F.

(** A text in which some isolated variables have been replaced: each cell is
    a character of the formula or the word that took a variable's place. *)
Inductive cell : Type :=
  | Orig (c : N)
  | Subst (b : bool).

Definition cell_text (x : cell) : str :=
  match x with
  | Orig c => [c]
  | Subst b => word b
  end.

Definition cell_word (x : cell) : bool :=
  match x with
  | Orig c => is_word c
  | Subst _ => true
  end.

Definition head_word (cs : list cell) : bool := from_option cell_word false (head cs).

(** One pass of the loop on cells: the occurrences of [v] with no word
    character on either side become [Subst b]. *)
Fixpoint mark (v : N) (b : bool) (prev_word : bool) (cs : list cell) : list cell :=
  match cs with
  | [] => []
  | x :: cs' =>
      match x with
      | Orig c =>
          if (v =? c) && negb prev_word && negb (head_word cs') then Subst b else x
      | Subst _ => x
      end :: mark v b (cell_word x) cs'
  end.

(** Formulas as the specification has them, and their reading. *)
Inductive variable : Type := Vp | Vq | Vr | Vs.

Definition char_of (v : variable) : N :=
  match v with
  | Vp => c_p
  | Vq => c_q
  | Vr => c_r
  | Vs => c_s
  end.

Inductive form : Type :=
  | Var (v : variable)
  | Not (f : form)
  | And (f g : form)
  | Or (f g : form)
  | Implies (f g : form)
  | Iff (f g : form).

Fixpoint holds (a : N -> bool) (f : form) : bool :=
  match f with
  | Var v => a (char_of v)
  | Not f => negb (holds a f)
  | And f g => holds a f && holds a g
  | Or f g => holds a f || holds a g
  | Implies f g => negb (holds a f) || holds a g
  | Iff f g => eqb (holds a f) (holds a g)
  end.

Fixpoint depth (f : form) : nat :=
  match f with
  | Var _ => 1
  | Not f => S (depth f)
  | And f g | Or f g | Implies f g | Iff f g => S (Nat.max (depth f) (depth g))
  end.

(** The text of a formula with every grouping explicit: an operand is a
    variable or a parenthesised formula. *)
Fixpoint render (f : form) : str :=
  let operand g :=
    match g with
    | Var v => [char_of v]
    | _ => [c_lpar] ++ render g ++ [c_rpar]
    end in
  match f with
  | Var v => [char_of v]
  | Not f => [c_not] ++ operand f
  | And f g => operand f ++ [c_and] ++ operand g
  | Or f g => operand f ++ [c_or] ++ operand g
  | Implies f g => operand f ++ [c_imp] ++ operand g
  | Iff f g => operand f ++ [c_iff] ++ operand g
  end.

Definition operand (g : form) : str :=
  match g with
  | Var v => [char_of v]
  | _ => [c_lpar] ++ render g ++ [c_rpar]
  end.

(** The Python tree of a formula under the valuation [a]. *)
Fixpoint python_tree (a : N -> bool) (f : form) : pyexpr :=
  match f with
  | Var v => EConst (a (char_of v))
  | Not f => ENot (python_tree a f)
  | And f g => EAnd (python_tree a f) (python_tree a g)
  | Or f g => EOr (python_tree a f) (python_tree a g)
  | Implies f g => ECompare (python_tree a f) (Link Le (python_tree a g) NoLink)
  | Iff f g => ECompare (python_tree a f) (Link Eq (python_tree a g) NoLink)
  end.

(** Texts over the alphabet of the program (variables, connectives,
    parentheses, blanks) in which no variable is directly followed by a
    variable or by ¬. *)
Definition in_alphabet (c : N) : bool :=
  is_variable c || (c =? c_not) || (c =? c_and) || (c =? c_or) || (c =? c_imp)
  || (c =? c_iff) || (c =? c_lpar) || (c =? c_rpar) || (c =? 32) || (c =? 9).

Fixpoint wellspaced (after_variable : bool) (s : str) : bool :=
  match s with
  | [] => true
  | c :: s' =>
      in_alphabet c
      && negb (after_variable && (is_variable c || (c =? c_not)))
      && wellspaced (is_variable c) s'
  end.

(** The Python tokens a character of such a text turns into under the
    valuation [a]. *)
Definition char_tokens (a : N -> bool) (c : N) : list token :=
  if is_variable c then [if a c then TTrue else TFalse]
  else if c =? c_not then [TNot]
  else if c =? c_and then [TAnd]
  else if c =? c_or then [TOr]
  else if c =? c_imp then [TLe]
  else if c =? c_iff then [TEq]
  else if c =? c_lpar then [TLpar]
  else if c =? c_rpar then [TRpar]
  else [].

Definition valuation (tv : dict) (c : N) : bool := default false (truth tv c).

Definition covers (tv : dict) (s : str) : Prop :=
  ∀ c, c ∈ s → is_variable c = true → is_Some (dict_get tv [c]).

Definition cells_text (cs : list cell) : str := cs ≫= cell_text.

(** The loop of [evaluate_formula] on cells, for an assignment. *)
Definition mark_entry (cs : list cell) (kv : str * str) : list cell :=
  mark (hd 0 kv.1) (str_eqb kv.2 s_T) false cs.

(** [cs] is [formula] with some of its variables replaced by whole words. *)
Definition replaces (formula : str) (cs : list cell) : Prop :=
  Forall2 (fun c x => x = Orig c ∨ (is_variable c = true ∧ ∃ b, x = Subst b)) formula cs.

(** No two word characters side by side; [prev_word] tells whether the
    character before the text is one. *)
Fixpoint isolated (prev_word : bool) (s : str) : bool :=
  match s with
  | [] => true
  | c :: s' => negb (prev_word && is_word c) && isolated (is_word c) s'
  end.

(** The cells of a text whose variables are replaced as [d] says. *)
Definition cellmap (d : N -> option bool) (s : str) : list cell :=
  (fun c => match d c with Some b => Subst b | None => Orig c end) <$> s.

Definition update (d : N -> option bool) (v : N) (b : bool) (c : N) : option bool :=
  if c =? v then Some b else d c.

(** The Python text a character of a well-spaced formula turns into. *)
Definition char_text (a : N -> bool) (c : N) : str :=
  if is_variable c then word (a c) else connectives [c].

(** The outcome of [evaluate_formula] for a parse of the whole text. *)
Definition verdict (p : parsed pyexpr) : outcome str :=
  match p with
  | Parsed e _ => Returns (letter (py_value e))
  | SyntaxError => Raises
  | Outside | OutOfFuel => Unmodelled
  end.


(** Token lists after which a parsed operand or formula ends. *)
Definition starts_with_token (t : token) (ts : list token) : bool :=
  match ts with
  | t' :: _ => match t, t' with
               | TTrue, TTrue | TFalse, TFalse | TNot, TNot | TAnd, TAnd
               | TOr, TOr | TLe, TLe | TEq, TEq | TLpar, TLpar | TRpar, TRpar => true
               | _, _ => false
               end
  | [] => false
  end.

Definition closing (rest : list token) : bool :=
  match rest with
  | [] => true
  | t :: _ => starts_with_token TRpar rest
  end.

Definition is_connective (c : N) : bool :=
  (c =? c_not) || (c =? c_and) || (c =? c_or) || (c =? c_imp) || (c =? c_iff).

(** Blank characters: space, tab, line feed, vertical tab, form feed,
    carriage return. *)
Definition is_space (c : N) : bool :=
  (c =? 32) || ((9 <=? c) && (c <=? 13)).

(** Token lists an expression can start with. *)
Definition opens (ts : list token) : bool :=
  match ts with
  | (TTrue | TFalse | TLpar | TNot) :: _ => true
  | _ => false
  end.

(** [¬(F)]: the text [F] in parentheses with ¬ before it. *)
Definition negation (formula : str) : str := [c_not; c_lpar] ++ formula ++ [c_rpar].

(** The other letter. *)
Definition flip (res : str) : str := if str_eqb res s_T then s_F else s_T.

(** The cells of a text with [¬(] before it and [)] after it. *)
Definition wrap (cs : list cell) : list cell :=
  Orig c_not :: Orig c_lpar :: cs ++ [Orig c_rpar].

Definition fuel_monotone (n : nat) : Prop :=
  (∀ ts e r, p_disj n ts = Parsed e r → p_disj (S n) ts = Parsed e r) ∧
  (∀ ts e r, p_conj n ts = Parsed e r → p_conj (S n) ts = Parsed e r) ∧
  (∀ ts e r, p_inv n ts = Parsed e r → p_inv (S n) ts = Parsed e r) ∧
  (∀ ts e r, p_comp n ts = Parsed e r → p_comp (S n) ts = Parsed e r) ∧
  (∀ ts c r, p_chain n ts = Parsed c r → p_chain (S n) ts = Parsed c r) ∧
  (∀ ts e r, p_atom n ts = Parsed e r → p_atom (S n) ts = Parsed e r).

Definition closes (n : nat) (x : list token) : Prop :=
  (∀ ts e r, p_disj n ts = Parsed e r →
     p_disj n (ts ++ TRpar :: x) = Parsed e (r ++ TRpar :: x)) ∧
  (∀ ts e r, p_conj n ts = Parsed e r →
     p_conj n (ts ++ TRpar :: x) = Parsed e (r ++ TRpar :: x)) ∧
  (∀ ts e r, p_inv n ts = Parsed e r →
     p_inv n (ts ++ TRpar :: x) = Parsed e (r ++ TRpar :: x)) ∧
  (∀ ts e r, p_comp n ts = Parsed e r →
     p_comp n (ts ++ TRpar :: x) = Parsed e (r ++ TRpar :: x)) ∧
  (∀ ts c r, p_chain n ts = Parsed c r →
     p_chain n (ts ++ TRpar :: x) = Parsed c (r ++ TRpar :: x)) ∧
  (∀ ts e r, p_atom n ts = Parsed e r →
     p_atom n (ts ++ TRpar :: x) = Parsed e (r ++ TRpar :: x)).

(** The rows on which two result columns differ, each with its 0-based
    index, its assignment and both results. *)
Definition divergent_rows (first : nat) (combinations : list dict)
    (results1 results2 : list str) : list (nat * dict * str * str) :=
  filter (fun d => d.1.2 ≠ d.2)
         (imap (fun i row => (first + i, row.1, row.2.1, row.2.2)%nat)
               (zip combinations (zip results1 results2))).

(** The line reporting a divergent row: its 1-based number, the whole
    assignment as [k=v] pairs, and both results. *)
Definition report_line (number : nat) (combo : dict) (res1 res2 : str) : str :=
  u "第 " ++ str_of_nat number ++ u " 组：" 
    ++ join (u ", ") ((fun kv => kv.1 ++ u "=" ++ kv.2) <$> combo)
    ++ u " → 公式1=" ++ res1 ++ u "，公式2=" ++ res2.

(** ** The access view ([logic_door_access])

    The widgets give the strings ["是"] or ["否"] and one of the three person
    types; the card is asked of a student only and the escort of a visitor
    only, both being ["否"] otherwise.  The texts of the page are kept as
    decoded constants. *)
Definition yes : str := Eval vm_compute in u "是".
Definition no : str := Eval vm_compute in u "否".
Definition student : str := Eval vm_compute in u "学生".
Definition teacher : str := Eval vm_compute in u "教师".
Definition visitor : str := Eval vm_compute in u "访客".
Definition allowed : str := Eval vm_compute in u "允许进入".
Definition refused : str := Eval vm_compute in u "禁止进入".
Definition may_enter : str := Eval vm_compute in u "✅ 可以进入实验室".
Definition may_not_enter : str := Eval vm_compute in u "❌ 不可以进入实验室".

(** The pieces of [f"1. 已知条件：工作日={W}，工作时间={T}，人员类型=..."]. *)
Definition known_day : str := Eval vm_compute in u "1. 已知条件：工作日=".
Definition known_hours : str := Eval vm_compute in u "，工作时间=".
Definition known_person : str := Eval vm_compute in u "，人员类型=".
Definition known_card : str := Eval vm_compute in u "，有学生证=".
Definition known_escort : str := Eval vm_compute in u "，有教师陪同=".

Definition known (W T : str) : str :=
  known_day ++ W ++ known_hours ++ T ++ known_person.

(** The second step of each branch, up to its verdict. *)
Definition by_rule_teacher : str :=
  Eval vm_compute in u "2. 应用规则3：教师任何时间均可进入 → ".
Definition by_rule_off_hours : str :=
  Eval vm_compute in u "2. 应用规则2：工作日非工作时间 → ".
Definition by_rule_card : str :=
  Eval vm_compute in u "2. 应用规则1：工作日工作时间+有学生证 → ".
Definition by_rule_no_card : str :=
  Eval vm_compute in u "2. 应用规则1：工作日工作时间+无学生证 → ".
Definition by_rule_day_off : str :=
  Eval vm_compute in u "2. 应用默认规则：非工作日 → ".
Definition by_rule_escort : str :=
  Eval vm_compute in u "2. 应用规则4：有教师陪同 → ".
Definition by_rule_no_escort : str :=
  Eval vm_compute in u "2. 应用规则4：无教师陪同 → ".

Definition rule_teacher : str := by_rule_teacher ++ allowed.
Definition rule_off_hours : str := by_rule_off_hours ++ refused.
Definition rule_card : str := by_rule_card ++ allowed.
Definition rule_no_card : str := by_rule_no_card ++ refused.
Definition rule_day_off : str := by_rule_day_off ++ allowed.
Definition rule_escort : str := by_rule_escort ++ allowed.
Definition rule_no_escort : str := by_rule_no_escort ++ refused.

Record access : Type := {
  allow : bool;
  reasoning : list str;
  conclusion : str
}.

Definition logic_door_access (W T person_type student_id teacher_escort : str) : access :=
  let C := if str_eqb person_type student then student_id else no in
  let A := if str_eqb person_type student then no
           else if str_eqb person_type visitor then teacher_escort
           else no in
  let W_bool := str_eqb W yes in
  let T_bool := str_eqb T yes in
  let C_bool := str_eqb C yes in
  let A_bool := str_eqb A yes in
  let S_bool := str_eqb person_type student in
  let E_bool := str_eqb person_type teacher in
  let V_bool := str_eqb person_type visitor in
  let '(allow, reasoning) :=
    if E_bool then
      (true, [known W T ++ teacher; rule_teacher])
    else if S_bool then
      let first :=
        known W T ++ student ++ known_card ++ C in
      if W_bool && negb T_bool then (false, [first; rule_off_hours])
      else if W_bool && T_bool then
        if C_bool then (true, [first; rule_card])
        else (false, [first; rule_no_card])
      else (true, [first; rule_day_off])
    else if V_bool then
      let first :=
        known W T ++ visitor ++ known_escort ++ A in
      if A_bool then (true, [first; rule_escort])
      else (false, [first; rule_no_escort])
    else (false, []) in
  {| allow := allow;
     reasoning := reasoning;
     conclusion := if allow then may_enter else may_not_enter |}.

(** A difference with its two results exchanged. *)
Definition exchange (d : nat * dict * str * str) : nat * dict * str * str :=
  (d.1.1.1, d.1.1.2, d.2, d.1.2).

(** The number of the row whose bits, most significant first, are [bits]. *)
Definition row_number (bits : list bool) : nat :=
  foldl (fun acc (b : bool) => (2 * acc + (if b then 1 else 0))%nat) 0%nat bits.

(** The assignment that gives each of the variables the letter of [a]. *)
Definition assignment_of (a : str -> bool) (variables : list str) : dict :=
  (fun v => (v, letter (a v))) <$> variables.

(** The cells of a text after the loop, when [d] gives the values of the
    variables of the assignment: a variable with a value is replaced where
    no word character stands on either side of it. *)
Fixpoint substituted (d : N -> option bool) (prev_word : bool) (s : str) : list cell :=
  match s with
  | [] => []
  | c :: s' =>
      match d c with
      | Some b =>
          if negb prev_word && negb (word_at (head s')) then Subst b else Orig c
      | None => Orig c
      end :: substituted d (is_word c) s'
  end.

(** The formula type of a column of results, as the view computes it. *)
Definition classify (results : list str) : formula_type :=
  if forallb (fun res => str_eqb res s_T) results then Tautology
  else if forallb (fun res => str_eqb res s_F) results then Contradiction
  else Contingent.
(** * Proofs *)

(** ** Strings and dictionaries *)

Lemma str_eqb_eq (a b : str) : str_eqb a b = true ↔ a = b.
Proof.
  revert b; induction a as [|x a IH]; intros [|y b]; simpl; split; try done.
  - rewrite andb_true_iff, N.eqb_eq, IH. by intros [-> ->].
  - intros [= -> ->]. rewrite andb_true_iff, N.eqb_eq, IH. done.
Qed.

Lemma str_eqb_refl (a : str) : str_eqb a a = true.
Proof. by apply str_eqb_eq. Qed.

Lemma str_eqb_neq (a b : str) : a ≠ b → str_eqb a b = false.
Proof. intros H. destruct (str_eqb a b) eqn:E; [|done]. by apply str_eqb_eq in E. Qed.

Lemma dict_get_set_eq (d : dict) (k v : str) : dict_get (dict_set k v d) k = Some v.
Proof.
  induction d as [|[k' v'] d IH]; simpl.
  - by rewrite str_eqb_refl.
  - destruct (str_eqb k' k) eqn:E; simpl; by rewrite E.
Qed.

Lemma dict_set_fresh (d : dict) (k v : str) : k ∉ d.*1 → dict_set k v d = d ++ [(k, v)].
Proof.
  induction d as [|[k' v'] d IH]; simpl; [done|].
  rewrite not_elem_of_cons. intros [Hne Hin].
  rewrite str_eqb_neq by done. by rewrite IH.
Qed.

Lemma dict_get_elem (d : dict) (k v : str) : NoDup d.*1 → (k, v) ∈ d → dict_get d k = Some v.
Proof.
  induction d as [|[k' v'] d IH]; simpl; intros Hnd Hin.
  - by apply elem_of_nil in Hin.
  - apply NoDup_cons in Hnd as [Hk Hnd]. apply elem_of_cons in Hin as [[= <- <-]|Hin].
    + by rewrite str_eqb_refl.
    + rewrite str_eqb_neq; [by apply IH|]. intros ->. apply Hk.
      apply list_elem_of_fmap. by exists (k, v).
Qed.

Lemma dict_get_Some_elem (d : dict) (k v : str) : dict_get d k = Some v → (k, v) ∈ d.
Proof.
  induction d as [|[k' v'] d IH]; simpl; [done|].
  destruct (str_eqb k' k) eqn:E.
  - apply str_eqb_eq in E as ->. intros [= ->]. left.
  - intros H. right. by apply IH.
Qed.

Lemma dict_get_None (d : dict) (k : str) : dict_get d k = None ↔ k ∉ d.*1.
Proof.
  induction d as [|[k' v'] d IH]; simpl.
  - split; [intros _; apply not_elem_of_nil|done].
  - rewrite not_elem_of_cons. destruct (str_eqb k' k) eqn:E.
    + apply str_eqb_eq in E as ->. split; [done|]. by intros [? _].
    + rewrite IH. split; [|tauto]. intros H. split; [|done].
      intros ->. by rewrite str_eqb_refl in E.
Qed.

(** Closed lists of distinct strings. *)
Ltac distinct :=
  repeat first
    [ apply NoDup_nil_2
    | apply NoDup_cons_2;
      [ rewrite ?not_elem_of_cons; repeat split; try apply not_elem_of_nil; discriminate | ] ].

(** ** The order of strings and [sorted] *)

#[global] Instance str_le_total : Total str_le.
Proof.
  intros a. unfold str_le. induction a as [|x a IH]; intros [|y b]; simpl; auto.
  destruct (IH b) as [H|H]; rewrite H;
    destruct (N.ltb_spec x y), (N.ltb_spec y x), (N.eqb_spec x y), (N.eqb_spec y x);
    simpl; auto; lia.
Qed.

#[global] Instance str_le_trans : Transitive str_le.
Proof.
  intros a. unfold str_le. induction a as [|x a IH]; intros [|y b] [|z c]; simpl; auto; try done.
  rewrite !orb_true_iff, !andb_true_iff, !N.ltb_lt, !N.eqb_eq.
  intros [?|[-> ?]] [?|[-> ?]]; eauto; left; lia.
Qed.

#[global] Instance str_le_antisymm : AntiSymm (=) str_le.
Proof.
  intros a. unfold str_le. induction a as [|x a IH]; intros [|y b]; simpl; auto; try done.
  rewrite !orb_true_iff, !andb_true_iff, !N.ltb_lt, !N.eqb_eq.
  intros [?|[-> ?]] [?|[? ?]]; try lia. f_equal. by apply IH.
Qed.

Lemma Sorted_sorted (s : gset str) : Sorted str_le (sorted s).
Proof. apply (Sorted_merge_sort _). Qed.

Lemma sorted_elements (s : gset str) : sorted s ≡ₚ elements s.
Proof. apply merge_sort_Permutation. Qed.

Lemma elem_of_sorted (s : gset str) (v : str) : v ∈ sorted s ↔ v ∈ s.
Proof. rewrite sorted_elements. apply elem_of_elements. Qed.

Lemma NoDup_sorted (s : gset str) : NoDup (sorted s).
Proof. rewrite sorted_elements. apply NoDup_elements. Qed.

(** ** [extract_variables] *)

Lemma is_variable_canonical (c : N) : is_variable c = true ↔ c ∈ canonical.
Proof.
  unfold is_variable, canonical. rewrite !orb_true_iff, !N.eqb_eq.
  rewrite !elem_of_cons, elem_of_nil. tauto.
Qed.

Lemma is_variable_cases (c : N) :
  is_variable c = true → c = c_p ∨ c = c_q ∨ c = c_r ∨ c = c_s.
Proof.
  unfold is_variable. rewrite !orb_true_iff, !N.eqb_eq. tauto.
Qed.

Lemma is_variable_word (c : N) : is_variable c = true → is_word c = true.
Proof. intros H. by destruct (is_variable_cases c H) as [->|[->|[->| ->]]]. Qed.

Lemma variable_set_spec (formula : str) (v : str) :
  v ∈ variable_set formula ↔ ∃ c, v = [c] ∧ is_variable c = true ∧ c ∈ formula.
Proof.
  unfold variable_set.
  set (step := fun (variables : gset str) char =>
                 if is_variable char then {[ [char] ]} ∪ variables else variables).
  assert (G : ∀ acc : gset str,
    v ∈ foldl step acc formula
    ↔ v ∈ acc ∨ ∃ c, v = [c] ∧ is_variable c = true ∧ c ∈ formula).
  { induction formula as [|c f IH]; intros acc; simpl.
    - split; [auto|]. intros [?|(c & _ & _ & H)]; [done|]. by apply elem_of_nil in H.
    - rewrite IH. unfold step. destruct (is_variable c) eqn:E.
      + rewrite elem_of_union, elem_of_singleton. split.
        * intros [[->|?]|(c' & ? & ? & ?)]; eauto.
          -- right. exists c. split_and!; auto. left.
          -- right. exists c'. split_and!; auto. by right.
        * intros [?|(c' & -> & ? & Hin)]; auto.
          apply elem_of_cons in Hin as [->|?]; eauto 6.
      + split.
        * intros [?|(c' & ? & ? & ?)]; auto. right. exists c'. split_and!; auto. by right.
        * intros [?|(c' & -> & ? & Hin)]; auto.
          apply elem_of_cons in Hin as [->|?]; [congruence|eauto 6]. }
  rewrite G. split; [|auto]. intros [H|H]; [|done]. by apply elem_of_empty in H.
Qed.

Lemma elem_of_extract_variables (formula : str) (v : str) :
  v ∈ extract_variables formula ↔ ∃ c, v = [c] ∧ is_variable c = true ∧ c ∈ formula.
Proof. unfold extract_variables. by rewrite elem_of_sorted, variable_set_spec. Qed.

Lemma canonical_filter_sorted (P : N → Prop) `{∀ c, Decision (P c)} :
  Sorted str_le ((λ c, [c]) <$> filter P canonical) ∧
  NoDup ((λ c, [c]) <$> filter P canonical).
Proof.
  unfold canonical. rewrite !filter_cons, filter_nil.
  repeat case_decide; simpl; split;
    repeat first [ apply Sorted_nil | apply Sorted_cons | apply HdRel_nil | apply HdRel_cons
                 | apply NoDup_nil_2 | apply NoDup_cons_2 ];
    try reflexivity;
    rewrite ?not_elem_of_cons; repeat split; try apply not_elem_of_nil; discriminate.
Qed.

(** C9. [extract_variables] returns the variables p, q, r, s that occur in
    the text, each once, in the canonical order p < q < r < s: the result is
    the canonical list with the absent variables left out.  Being a function
    of the text, two calls agree. *)
Theorem extract_variables_canonical (formula : str) :
  extract_variables formula = (λ c, [c]) <$> filter (λ c, c ∈ formula) canonical
  ∧ NoDup (extract_variables formula)
  ∧ ∀ c, [c] ∈ extract_variables formula ↔ c ∈ formula ∧ c ∈ canonical.
Proof.
  split_and!.
  - destruct (canonical_filter_sorted (λ c, c ∈ formula)) as [Hs Hn].
    apply (Sorted_unique str_le); auto.
    + apply Sorted_sorted.
    + apply NoDup_Permutation; auto.
      * apply NoDup_sorted.
      * intros v. rewrite elem_of_extract_variables.
        rewrite list_elem_of_fmap. setoid_rewrite list_elem_of_filter.
        setoid_rewrite is_variable_canonical. naive_solver.
  - apply NoDup_sorted.
  - intros c. rewrite elem_of_extract_variables. setoid_rewrite is_variable_canonical.
    naive_solver.
Qed.

(** ** [generate_truth_combinations] *)

Lemma bit_letter (i k : Z) :
  (0 ≤ k)%Z →
  (if (Z.land (Z.shiftr i k) 1 =? 0)%Z then s_F else s_T) = letter (Z.testbit i k).
Proof.
  intros Hk. rewrite Z.testbit_odd.
  change 1%Z with (Z.ones 1) at 1. rewrite Z.land_ones by lia.
  change (2 ^ 1)%Z with 2%Z. rewrite Zmod_odd. by destruct (Z.odd _).
Qed.

Lemma combination_fold (variables : list str) (n : nat) (i : Z) :
  NoDup variables →
  ∀ (vs pre : list str) (acc : dict),
    variables = pre ++ vs → acc.*1 = pre →
    foldl (fun combo j =>
             let bit := Z.land (Z.shiftr i (Z.of_nat (n - 1 - j))) 1 in
             dict_set (variables !!! j) (if (bit =? 0)%Z then s_F else s_T) combo)
          acc (seq (length pre) (length vs))
    = acc ++ zip_with (fun j v => (v, letter (Z.testbit i (Z.of_nat (n - 1 - j)))))
                      (seq (length pre) (length vs)) vs.
Proof.
  intros Hnd vs. induction vs as [|v vs IH]; intros pre acc Hv Hacc; simpl.
  - by rewrite app_nil_r.
  - rewrite bit_letter by lia.
    assert (Hlook : variables !!! length pre = v).
    { rewrite Hv. rewrite lookup_total_app_r by lia. by rewrite Nat.sub_diag. }
    rewrite Hlook. rewrite dict_set_fresh.
    2:{ rewrite Hacc. rewrite Hv in Hnd. apply NoDup_app in Hnd as (_ & Hd & _).
        intros Hin. apply (Hd v Hin). left. }
    specialize (IH (pre ++ [v]) (acc ++ [(v, letter (Z.testbit i (Z.of_nat (n - 1 - length pre))))])).
    rewrite length_app in IH. simpl in IH. rewrite Nat.add_1_r in IH.
    rewrite IH.
    + by rewrite <- app_assoc.
    + by rewrite <- app_assoc.
    + rewrite fmap_app. simpl. by rewrite Hacc.
Qed.

Lemma combination_zip (variables : list str) (i : Z) :
  NoDup variables →
  combination variables (length variables) i
  = zip_with (fun j v => (v, letter (Z.testbit i (Z.of_nat (length variables - 1 - j)))))
             (seq 0 (length variables)) variables.
Proof.
  intros Hnd. unfold combination.
  by rewrite (combination_fold variables _ i Hnd variables [] []).
Qed.

Lemma zip_with_keys {A} (f : A → str) (js : list A) (vs : list str) :
  length js = length vs → (zip_with (fun j v => (v, f j)) js vs).*1 = vs.
Proof.
  revert vs. induction js as [|j js IH]; intros [|v vs]; simpl; try done.
  intros [= H]. by rewrite IH.
Qed.

Lemma combination_keys (variables : list str) (i : Z) :
  NoDup variables → (combination variables (length variables) i).*1 = variables.
Proof.
  intros Hnd. rewrite combination_zip by done. apply zip_with_keys. by rewrite length_seq.
Qed.

Lemma combination_get (variables : list str) (i : Z) (j : nat) (v : str) :
  NoDup variables → variables !! j = Some v →
  dict_get (combination variables (length variables) i) v
  = Some (letter (Z.testbit i (Z.of_nat (length variables - 1 - j)))).
Proof.
  intros Hnd Hj. apply dict_get_elem.
  - by rewrite combination_keys.
  - rewrite combination_zip by done. apply list_elem_of_lookup. exists j.
    rewrite lookup_zip_with, lookup_seq_lt by (by apply lookup_lt_Some in Hj).
    simpl. by rewrite Hj.
Qed.

Lemma length_generate_truth_combinations (variables : list str) :
  length (generate_truth_combinations variables) = (2 ^ length variables)%nat.
Proof. unfold generate_truth_combinations. by rewrite length_fmap, length_seq. Qed.

Lemma lookup_generate_truth_combinations (variables : list str) (i : nat) :
  (i < 2 ^ length variables)%nat →
  generate_truth_combinations variables !! i
  = Some (combination variables (length variables) (Z.of_nat i)).
Proof.
  intros Hi. unfold generate_truth_combinations.
  by rewrite list_lookup_fmap, lookup_seq_lt.
Qed.

(** ** The truth-table view *)

Lemma length_evaluate_rows (formula : str) (combinations : list dict) (results : list str) :
  evaluate_rows formula combinations = Returns results →
  length results = length combinations.
Proof.
  revert results. induction combinations as [|c cs IH]; intros results; simpl.
  - by intros [= <-].
  - destruct (evaluate_formula formula c); try done.
    destruct (evaluate_rows formula cs); try done.
    intros [= <-]. simpl. by rewrite (IH _ eq_refl).
Qed.

Lemma lookup_evaluate_rows (formula : str) (combinations : list dict) (results : list str) :
  evaluate_rows formula combinations = Returns results →
  ∀ i combo, combinations !! i = Some combo →
    ∃ res, results !! i = Some res ∧ evaluate_formula formula combo = Returns res.
Proof.
  revert results. induction combinations as [|c cs IH]; intros results; simpl; [done|].
  destruct (evaluate_formula formula c) eqn:E; try done.
  destruct (evaluate_rows formula cs); try done.
  intros [= <-] [|i] combo; simpl.
  - intros [= <-]. eauto.
  - by apply IH.
Qed.

(** What a shown truth table is made of. *)
Lemma truth_table_generator_Shown (formula : str) (tt : truth_table) :
  truth_table_generator formula = Shown tt →
  formula ≠ [] ∧ extract_variables formula ≠ [] ∧
  tt_variables tt = extract_variables formula ∧
  tt_combinations tt = generate_truth_combinations (extract_variables formula) ∧
  evaluate_rows formula (tt_combinations tt) = Returns (tt_results tt) ∧
  tt_table_data tt
    = zip_with (fun combo res => dict_set formula res combo)
               (tt_combinations tt) (tt_results tt) ∧
  tt_formula_type tt
    = (if forallb (fun res => str_eqb res s_T) (tt_results tt) then Tautology
       else if forallb (fun res => str_eqb res s_F) (tt_results tt) then Contradiction
       else Contingent).
Proof.
  unfold truth_table_generator. destruct formula as [|c f]; [done|].
  destruct (extract_variables (c :: f)) as [|v vs] eqn:Ev; [done|].
  destruct (evaluate_rows _ _) as [results| |] eqn:Er; try done.
  intros [= <-]. simpl. by rewrite Er.
Qed.

Lemma length_tt_results (formula : str) (tt : truth_table) :
  truth_table_generator formula = Shown tt →
  length (tt_results tt) = (2 ^ length (extract_variables formula))%nat.
Proof.
  intros H. apply truth_table_generator_Shown in H as (_ & _ & _ & Hc & Hr & _).
  apply length_evaluate_rows in Hr. rewrite Hr, Hc.
  apply length_generate_truth_combinations.
Qed.

(** C2. For a list of [n] distinct variables (a sorted variable list has no
    repetition) [generate_truth_combinations] returns [2 ^ n] assignments;
    assignment [i] has the variables as its keys, in order, and gives
    variable [j] the letter of bit [n - 1 - j] of [i], the [j]-th bit from
    the most significant end of the [n]-bit representation.  The table of a
    formula has one row for each of these assignments, in this order. *)
Theorem generate_truth_combinations_bits :
  (∀ variables : list str,
     NoDup variables →
     length (generate_truth_combinations variables) = (2 ^ length variables)%nat ∧
     ∀ i : nat, (i < 2 ^ length variables)%nat →
       ∃ combo, generate_truth_combinations variables !! i = Some combo ∧
         combo.*1 = variables ∧
         ∀ j v, variables !! j = Some v →
           dict_get combo v
           = Some (letter (Z.testbit (Z.of_nat i) (Z.of_nat (length variables - 1 - j)))))
  ∧ (∀ (formula : str) (tt : truth_table),
       truth_table_generator formula = Shown tt →
       tt_combinations tt = generate_truth_combinations (extract_variables formula) ∧
       length (tt_table_data tt) = (2 ^ length (extract_variables formula))%nat ∧
       ∀ i row, tt_table_data tt !! i = Some row →
         ∃ combo res, tt_combinations tt !! i = Some combo ∧
           tt_results tt !! i = Some res ∧ row = dict_set formula res combo).
Proof.
  split.
  - intros variables Hnd. split; [apply length_generate_truth_combinations|].
    intros i Hi. eexists. split; [by apply lookup_generate_truth_combinations|].
    split; [by apply combination_keys|].
    intros j v Hj. by apply combination_get.
  - intros formula tt H. pose proof (length_tt_results _ _ H) as Hlen.
    apply truth_table_generator_Shown in H as (_ & _ & _ & Hc & Hr & Hd & _).
    split; [done|]. split.
    + rewrite Hd, length_zip_with_r_eq; [done|]. by apply length_evaluate_rows in Hr.
    + intros i row. rewrite Hd, lookup_zip_with_Some.
      intros (combo & res & -> & ? & ?). eauto.
Qed.

Lemma generate_truth_combinations_bits_witness :
  NoDup [u "p"; u "q"] ∧
  ∃ combo, generate_truth_combinations [u "p"; u "q"] !! 2%nat = Some combo ∧
    combo.*1 = [u "p"; u "q"] ∧
    dict_get combo (u "p") = Some s_T ∧ dict_get combo (u "q") = Some s_F.
Proof.
  assert (Hnd : NoDup [u "p"; u "q"]) by distinct.
  split; [exact Hnd|].
  destruct (proj1 generate_truth_combinations_bits [u "p"; u "q"] Hnd) as [_ H].
  destruct (H 2%nat) as (combo & H1 & H2 & H3); [simpl; lia|].
  exists combo. split_and!; [done|done| |].
  - by rewrite (H3 0%nat (u "p")).
  - by rewrite (H3 1%nat (u "q")).
Defined.

Lemma table_rows_results (formula : str) (combinations : list dict) (results : list str) :
  length results = length combinations →
  Forall2 (fun row res => dict_get row formula = Some res)
          (zip_with (fun combo res => dict_set formula res combo) combinations results)
          results.
Proof.
  revert combinations. induction results as [|res rs IH];
    intros [|combo cs]; simpl; try done.
  intros [= Hl]. constructor; [apply dict_get_set_eq|by apply IH].
Qed.

(** C3. A formula with at least one variable that evaluates on every row is
    labelled a tautology exactly when the result of every row is ['T'], a
    contradiction exactly when the result of every row is ['F'], and
    contingent exactly when neither holds; each row of the table holds its
    result under the formula's own column. *)
Theorem classification_by_rows (formula : str) (tt : truth_table) :
  truth_table_generator formula = Shown tt →
  (tt_formula_type tt = Tautology ↔ Forall (fun res => res = s_T) (tt_results tt)) ∧
  (tt_formula_type tt = Contradiction ↔ Forall (fun res => res = s_F) (tt_results tt)) ∧
  (tt_formula_type tt = Contingent ↔
     ¬ Forall (fun res => res = s_T) (tt_results tt) ∧
     ¬ Forall (fun res => res = s_F) (tt_results tt)) ∧
  Forall2 (fun row res => dict_get row formula = Some res)
          (tt_table_data tt) (tt_results tt).
Proof.
  intros H. pose proof (length_tt_results _ _ H) as Hlen.
  apply truth_table_generator_Shown in H as (_ & _ & _ & Hc & Hr & Hd & Ht).
  assert (HT : forallb (fun res => str_eqb res s_T) (tt_results tt) = true
               ↔ Forall (fun res => res = s_T) (tt_results tt)).
  { rewrite forallb_forall, Forall_forall. setoid_rewrite <- list_elem_of_In.
    by setoid_rewrite str_eqb_eq. }
  assert (HF : forallb (fun res => str_eqb res s_F) (tt_results tt) = true
               ↔ Forall (fun res => res = s_F) (tt_results tt)).
  { rewrite forallb_forall, Forall_forall. setoid_rewrite <- list_elem_of_In.
    by setoid_rewrite str_eqb_eq. }
  assert (Hex : Forall (fun res => res = s_T) (tt_results tt) →
                Forall (fun res => res = s_F) (tt_results tt) → False).
  { destruct (tt_results tt) as [|res rs].
    - simpl in Hlen. pose proof (Nat.pow_nonzero 2 (length (extract_variables formula))). lia.
    - intros HA HB. apply Forall_cons in HA as [-> _]. by apply Forall_cons in HB as [? _]. }
  rewrite Ht. split_and!.
  - destruct (forallb _ _) eqn:E1.
    + split; [intros _; by apply HT|done].
    + split; [destruct (forallb (fun res => str_eqb res s_F) _); intros [=]|].
      intros HA. apply HT in HA. congruence.
  - destruct (forallb (fun res => str_eqb res s_T) _) eqn:E1.
    + split; [done|]. intros HB. exfalso. apply Hex; [by apply HT|done].
    + destruct (forallb (fun res => str_eqb res s_F) _) eqn:E2.
      * split; [intros _; by apply HF|done].
      * split; [done|]. intros HB. apply HF in HB. congruence.
  - destruct (forallb (fun res => str_eqb res s_T) _) eqn:E1.
    + split; [done|]. intros [HA _]. exfalso. apply HA. by apply HT.
    + destruct (forallb (fun res => str_eqb res s_F) _) eqn:E2.
      * split; [done|]. intros [_ HB]. exfalso. apply HB. by apply HF.
      * split; [|done]. intros _. split; intros HA; [apply HT in HA|apply HF in HA]; congruence.
  - rewrite Hd. apply table_rows_results. by apply length_evaluate_rows in Hr.
Qed.

Lemma classification_by_rows_witness :
  ∃ tt, truth_table_generator (u "p∨¬p") = Shown tt ∧
        (tt_formula_type tt = Tautology ↔ Forall (fun res => res = s_T) (tt_results tt)).
Proof.
  assert (H : ∃ tt, truth_table_generator (u "p∨¬p") = Shown tt)
    by (eexists; vm_compute; reflexivity).
  destruct H as [tt H]. exists tt. split; [exact H|].
  exact (proj1 (classification_by_rows _ _ H)).
Defined.

(** ** [re.sub] on a variable *)

Lemma match_here_variable (v : N) (prev : option N) (c : N) (t : str) :
  is_word v = true →
  match_here [v] prev (c :: t)
  = (v =? c) && negb (word_at prev) && negb (word_at (head t)).
Proof.
  intros Hv. unfold match_here, at_boundary. simpl. rewrite drop_0.
  destruct (N.eqb_spec v c) as [->|Hne]; simpl.
  - rewrite Hv. by destruct (word_at prev), (word_at (head t)).
  - by rewrite andb_false_r.
Qed.

Lemma re_sub_from_nil (v : N) (repl : str) (prev : option N) :
  re_sub_from [v] repl prev 0 [] = [].
Proof. simpl. unfold match_here. simpl. by rewrite andb_false_r. Qed.

Lemma re_sub_from_cons (v : N) (repl : str) (prev : option N) (c : N) (t : str) :
  is_word v = true →
  re_sub_from [v] repl prev 0 (c :: t)
  = if (v =? c) && negb (word_at prev) && negb (word_at (head t))
    then repl ++ re_sub_from [v] repl (Some c) 0 t
    else c :: re_sub_from [v] repl (Some c) 0 t.
Proof.
  intros Hv. rewrite <- (match_here_variable v prev c t Hv). reflexivity.
Qed.

Lemma head_cells_text (cs : list cell) : word_at (head (cells_text cs)) = head_word cs.
Proof. by destruct cs as [|[c|[]] cs]. Qed.

Lemma cells_text_cons (x : cell) (cs : list cell) :
  cells_text (x :: cs) = cell_text x ++ cells_text cs.
Proof. reflexivity. Qed.

Lemma cells_text_app (cs cs' : list cell) :
  cells_text (cs ++ cs') = cells_text cs ++ cells_text cs'.
Proof. apply bind_app. Qed.

(** The words put in place of a variable are left alone by the later
    passes: no letter of [True] or [False] stands between two non-word
    characters. *)
Lemma re_sub_from_word (v : N) (repl : str) (prev : option N) (b : bool) (t : str) :
  is_variable v = true →
  re_sub_from [v] repl prev 0 (word b ++ t)
  = word b ++ re_sub_from [v] repl (Some 101) 0 t.
Proof.
  intros Hv. pose proof (is_variable_word v Hv) as Hw.
  destruct b;
    [ change (word true ++ t) with (84 :: 114 :: 117 :: 101 :: t)
    | change (word false ++ t) with (70 :: 97 :: 108 :: 115 :: 101 :: t) ];
    rewrite !re_sub_from_cons by done;
    destruct (is_variable_cases v Hv) as [->|[->|[->| ->]]]; simpl;
    by rewrite ?andb_false_r.
Qed.

Lemma re_sub_cells (v : N) (b : bool) (cs : list cell) (prev : option N) :
  is_variable v = true →
  re_sub_from [v] (word b) prev 0 (cells_text cs)
  = cells_text (mark v b (word_at prev) cs).
Proof.
  intros Hv. pose proof (is_variable_word v Hv) as Hw.
  revert prev. induction cs as [|x cs IH]; intros prev.
  - apply re_sub_from_nil.
  - destruct x as [c|b']; simpl mark; rewrite !cells_text_cons.
    + simpl cell_text. simpl app. rewrite re_sub_from_cons by done.
      rewrite head_cells_text, IH. simpl word_at.
      by destruct ((v =? c) && negb (word_at prev) && negb (head_word cs)).
    + simpl cell_text. rewrite re_sub_from_word by done. by rewrite IH.
Qed.

Lemma variable_name_inv (k : str) :
  variable_name k = true → ∃ v, k = [v] ∧ is_variable v = true.
Proof. destruct k as [|v [|? ?]]; try done. simpl. eauto. Qed.

Lemma substitute_cells (tv : dict) (cs : list cell) :
  Forall (fun k => variable_name k = true) tv.*1 →
  substitute (cells_text cs) tv = cells_text (foldl mark_entry cs tv).
Proof.
  unfold substitute. revert cs. induction tv as [|[k val] tv IH]; intros cs Hk; simpl; [done|].
  simpl in Hk. apply Forall_cons in Hk as [Hv Hk].
  apply variable_name_inv in Hv as (v & -> & Hv).
  unfold re_sub. change (if str_eqb val s_T then s_True else s_False) with (word (str_eqb val s_T)).
  rewrite re_sub_cells by done. by rewrite IH.
Qed.

Lemma cells_text_Orig (s : str) : cells_text (Orig <$> s) = s.
Proof. induction s as [|c s IH]; [done|]. rewrite fmap_cons, cells_text_cons, IH. done. Qed.

(** ** The passes commute *)

Lemma head_word_mark (v : N) (b pw : bool) (cs : list cell) :
  is_word v = true → head_word (mark v b pw cs) = head_word cs.
Proof.
  intros Hv. destruct cs as [|[c|b'] cs]; simpl; try done.
  destruct (N.eqb_spec v c) as [->|]; simpl; [|done].
  by destruct (negb pw && negb (head_word cs)).
Qed.

Lemma mark_comm (v1 v2 : N) (b1 b2 : bool) (cs : list cell) (pw : bool) :
  is_word v1 = true → is_word v2 = true → v1 ≠ v2 →
  mark v1 b1 pw (mark v2 b2 pw cs) = mark v2 b2 pw (mark v1 b1 pw cs).
Proof.
  intros H1 H2 Hne. revert pw. induction cs as [|x cs IH]; intros pw; [done|].
  destruct x as [c|b']; simpl.
  - rewrite !head_word_mark by done.
    destruct (v1 =? c) eqn:E1; destruct (v2 =? c) eqn:E2; simpl.
    + apply N.eqb_eq in E1, E2. congruence.
    + assert (Hc : is_word c = true) by (apply N.eqb_eq in E1; congruence).
      destruct pw, (head_word cs); simpl;
        rewrite ?E1, ?E2, ?Hc; simpl; by rewrite IH.
    + assert (Hc : is_word c = true) by (apply N.eqb_eq in E2; congruence).
      destruct pw, (head_word cs); simpl;
        rewrite ?E1, ?E2, ?Hc; simpl; by rewrite IH.
    + rewrite E1, E2. simpl. by rewrite IH.
  - by rewrite IH.
Qed.

Lemma mark_entry_comm (kv1 kv2 : str * str) (cs : list cell) :
  variable_name kv1.1 = true → variable_name kv2.1 = true → kv1.1 ≠ kv2.1 →
  mark_entry (mark_entry cs kv1) kv2 = mark_entry (mark_entry cs kv2) kv1.
Proof.
  destruct kv1 as [k1 x1], kv2 as [k2 x2]. simpl. intros Hk1 Hk2 Hne.
  apply variable_name_inv in Hk1 as (v1 & -> & Hv1).
  apply variable_name_inv in Hk2 as (v2 & -> & Hv2).
  unfold mark_entry. simpl. apply mark_comm; try by apply is_variable_word.
  congruence.
Qed.

Lemma mark_all_permutation (tv tv' : dict) :
  tv ≡ₚ tv' → assignment tv →
  ∀ cs, foldl mark_entry cs tv = foldl mark_entry cs tv'.
Proof.
  unfold assignment. induction 1 as [|kv tv tv' Hp IH|kv1 kv2 tv|tv tv' tv'' Hp1 IH1 Hp2 IH2];
    intros [Hnd Hk] cs.
  - done.
  - simpl in *. apply NoDup_cons in Hnd as [_ Hnd]. apply Forall_cons in Hk as [_ Hk].
    by apply IH.
  - simpl in *. apply NoDup_cons in Hnd as [Hne _].
    apply Forall_cons in Hk as [Hk2 Hk]. apply Forall_cons in Hk as [Hk1 _].
    f_equal. apply mark_entry_comm; try done.
    intros Heq. apply Hne. rewrite Heq. left.
  - rewrite IH1 by done. apply IH2. split.
    + by rewrite <- Hp1.
    + by rewrite <- Hp1.
Qed.

Lemma replaces_Orig (formula : str) : replaces formula (Orig <$> formula).
Proof. unfold replaces. induction formula; constructor; auto. Qed.

Lemma replaces_mark (formula : str) (cs : list cell) (v : N) (b pw : bool) :
  is_variable v = true → replaces formula cs → replaces formula (mark v b pw cs).
Proof.
  intros Hv H. revert pw. induction H as [|c x f cs Hx H IH]; intros pw; simpl; [constructor|].
  constructor; [|apply IH].
  destruct x as [c'|b']; [|done].
  destruct (N.eqb_spec v c') as [->|]; simpl; [|done].
  destruct (negb pw && negb (head_word cs)); [|done].
  destruct Hx as [[= ->]|[_ [? [=]]]]. right. eauto.
Qed.

Lemma replaces_mark_all (formula : str) (tv : dict) (cs : list cell) :
  Forall (fun k => variable_name k = true) tv.*1 →
  replaces formula cs → replaces formula (foldl mark_entry cs tv).
Proof.
  revert cs. induction tv as [|[k val] tv IH]; intros cs Hk H; simpl; [done|].
  simpl in Hk. apply Forall_cons in Hk as [Hv Hk].
  apply variable_name_inv in Hv as (v & -> & Hv).
  apply IH; [done|]. by apply replaces_mark.
Qed.



(** ** Substitution in a text whose variables stand alone *)

Lemma head_word_cellmap (d : N → option bool) (s : str) :
  (∀ c b, d c = Some b → is_word c = true) →
  head_word (cellmap d s) = word_at (head s).
Proof.
  intros Hd. destruct s as [|c s]; [done|]. unfold cellmap, head_word. simpl.
  destruct (d c) eqn:E; simpl; [|done]. symmetry. by apply (Hd c b).
Qed.

Lemma cellmap_ext (d d' : N → option bool) (s : str) :
  (∀ c, c ∈ s → d c = d' c) → cellmap d s = cellmap d' s.
Proof.
  intros H. unfold cellmap. apply list_fmap_ext. intros i c Hc.
  rewrite (H c); [done|]. by apply list_elem_of_lookup_2 in Hc.
Qed.

Lemma mark_cellmap (v : N) (b : bool) (d : N → option bool) :
  is_variable v = true → d v = None →
  (∀ c b', d c = Some b' → is_word c = true) →
  ∀ (s : str) (pw : bool),
    isolated pw s = true → mark v b pw (cellmap d s) = cellmap (update d v b) s.
Proof.
  intros Hv Hdv Hd. pose proof (is_variable_word v Hv) as Hw.
  induction s as [|c s IH]; intros pw Hs; [done|].
  simpl in Hs. apply andb_true_iff in Hs as [Hc Hs].
  change (cellmap d (c :: s))
    with ((match d c with Some b' => Subst b' | None => Orig c end) :: cellmap d s).
  change (cellmap (update d v b) (c :: s))
    with ((match update d v b c with Some b' => Subst b' | None => Orig c end)
            :: cellmap (update d v b) s).
  unfold update at 1. destruct (d c) as [b'|] eqn:E; simpl.
  - rewrite (Hd c b' E) in Hs. rewrite IH by done.
    destruct (N.eqb_spec c v) as [->|]; [congruence|done].
  - rewrite head_word_cellmap by done. rewrite IH by done.
    rewrite (N.eqb_sym c v). destruct (N.eqb_spec v c) as [<-|]; simpl; [|done].
    rewrite Hw in Hc, Hs. destruct pw; [done|]. simpl.
    destruct s as [|c' s]; [done|]. simpl in *.
    by destruct (is_word c').
Qed.

Lemma truth_cons (k val : str) (tv : dict) (c : N) :
  truth ((k, val) :: tv) c
  = if str_eqb k [c] then Some (str_eqb val s_T) else truth tv c.
Proof. unfold truth. simpl. by destruct (str_eqb k [c]). Qed.

Lemma truth_variable (tv : dict) (c : N) (b : bool) :
  Forall (fun k => variable_name k = true) tv.*1 →
  truth tv c = Some b → is_variable c = true.
Proof.
  intros Hk. unfold truth. destruct (dict_get tv [c]) as [val|] eqn:E; [|done].
  intros _. apply dict_get_Some_elem in E.
  rewrite Forall_forall in Hk. apply (Hk [c]).
  apply list_elem_of_fmap. by exists ([c], val).
Qed.

Lemma mark_all_cellmap (s : str) (tv : dict) :
  assignment tv → isolated false s = true →
  foldl mark_entry (Orig <$> s) tv = cellmap (truth tv) s.
Proof.
  intros [Hnd Hk] Hs.
  assert (G : ∀ (tv : dict) (d : N → option bool),
    NoDup tv.*1 → Forall (fun k => variable_name k = true) tv.*1 →
    (∀ c b, d c = Some b → is_variable c = true) →
    (∀ c, [c] ∈ tv.*1 → d c = None) →
    foldl mark_entry (cellmap d s) tv
    = cellmap (fun c => match d c with Some b => Some b | None => truth tv c end) s).
  { clear tv Hnd Hk. induction tv as [|[k val] tv IH]; intros d Hnd Hk Hd Hfresh.
    - simpl. apply cellmap_ext. intros c _. by destruct (d c).
    - simpl in *. apply NoDup_cons in Hnd as [Hk1 Hnd]. apply Forall_cons in Hk as [Hv Hk].
      apply variable_name_inv in Hv as (v & -> & Hv).
      unfold mark_entry at 2. simpl.
      rewrite mark_cellmap; try done.
      + rewrite IH; try done.
        * apply cellmap_ext. intros c _. unfold update. rewrite truth_cons. simpl.
          rewrite (N.eqb_sym v c), andb_true_r.
          destruct (N.eqb_spec c v) as [->|]; [|done].
          rewrite Hfresh; [done|left].
        * intros c b. unfold update. destruct (N.eqb_spec c v) as [->|]; [done|apply Hd].
        * intros c Hc. unfold update. destruct (N.eqb_spec c v) as [->|]; [done|].
          apply Hfresh. by right.
      + apply Hfresh. left.
      + intros c b Hc. apply is_variable_word. by apply (Hd c b). }
  change (Orig <$> s) with (cellmap (fun _ => None) s).
  by rewrite G.
Qed.

Lemma cells_text_cellmap (d : N → option bool) (s : str) :
  cells_text (cellmap d s)
  = s ≫= (fun c => match d c with Some b => word b | None => [c] end).
Proof.
  induction s as [|c s IH]; [done|].
  change (cellmap d (c :: s))
    with ((match d c with Some b' => Subst b' | None => Orig c end) :: cellmap d s).
  rewrite cells_text_cons, IH, bind_cons. by destruct (d c).
Qed.

(** ** The connectives *)

Lemma replace_bind (old : N) (new : str) (t : str) :
  replace old new t = t ≫= (fun c => if c =? old then new else [c]).
Proof. unfold replace. induction t as [|c t IH]; [done|]. simpl. by rewrite IH. Qed.

Lemma replace_app (old : N) (new : str) (t t' : str) :
  replace old new (t ++ t') = replace old new t ++ replace old new t'.
Proof. rewrite !replace_bind. apply bind_app. Qed.

Lemma connectives_app (t t' : str) :
  connectives (t ++ t') = connectives t ++ connectives t'.
Proof. unfold connectives. by rewrite !replace_app. Qed.

Lemma connectives_bind {A} (f : A → str) (l : list A) :
  connectives (l ≫= f) = l ≫= (fun x => connectives (f x)).
Proof.
  induction l as [|x l IH]; [done|].
  by rewrite !bind_cons, connectives_app, IH.
Qed.

Lemma connectives_word (b : bool) : connectives (word b) = word b.
Proof. by destruct b. Qed.

Lemma in_alphabet_cases (c : N) :
  in_alphabet c = true →
  is_variable c = true ∨
  (is_variable c = false ∧
   (c = c_not ∨ c = c_and ∨ c = c_or ∨ c = c_imp ∨ c = c_iff
    ∨ c = c_lpar ∨ c = c_rpar ∨ c = 32 ∨ c = 9)).
Proof.
  unfold in_alphabet. destruct (is_variable c) eqn:E; [auto|]. simpl.
  rewrite !orb_true_iff, !N.eqb_eq. intros H. right. split; [done|]. tauto.
Qed.

Lemma in_alphabet_word (c : N) : in_alphabet c = true → is_word c = is_variable c.
Proof.
  intros H. destruct (in_alphabet_cases c H) as [Hv|[Hv Hc]].
  - rewrite Hv. by apply is_variable_word.
  - rewrite Hv. by destruct Hc as [->|[->|[->|[->|[->|[->|[->|[->| ->]]]]]]]].
Qed.

Lemma wellspaced_isolated (s : str) (pv : bool) :
  wellspaced pv s = true → isolated pv s = true.
Proof.
  revert pv. induction s as [|c s IH]; intros pv; [done|]. simpl.
  rewrite !andb_true_iff. intros [[Ha Hc] Hs].
  rewrite (in_alphabet_word c Ha). split; [|by apply IH].
  destruct pv; [|done]. simpl in *. by destruct (is_variable c).
Qed.

Lemma bind_ext_in {A B} (f g : A → list B) (l : list A) :
  (∀ x, x ∈ l → f x = g x) → l ≫= f = l ≫= g.
Proof.
  induction l as [|x l IH]; intros H; [done|].
  rewrite !bind_cons, (H x) by left. rewrite IH; [done|].
  intros y Hy. apply H. by right.
Qed.

(** The text handed to [eval], for a well-spaced formula and an assignment
    that covers its variables. *)
Lemma translate_wellspaced (s : str) (tv : dict) :
  assignment tv → wellspaced false s = true → covers tv s →
  connectives (substitute s tv) = s ≫= char_text (valuation tv).
Proof.
  intros Ha Hs Hc.
  rewrite <- (cells_text_Orig s) at 1.
  rewrite substitute_cells by (by destruct Ha).
  rewrite mark_all_cellmap by (done || by apply wellspaced_isolated).
  rewrite cells_text_cellmap, connectives_bind.
  apply bind_ext_in. intros c Hin. unfold char_text, valuation.
  destruct (is_variable c) eqn:Ev.
  - destruct (Hc c Hin Ev) as [val Hval]. unfold truth. rewrite Hval. simpl.
    apply connectives_word.
  - destruct (truth tv c) as [b|] eqn:E; [|done].
    apply truth_variable in E; [congruence|by destruct Ha].
Qed.

(** ** Lexing the translated text *)

Lemma lex_word_step (w : str) (c : N) (s : str) :
  is_word c = true → lex w (c :: s) = lex (w ++ [c]) s.
Proof. intros H. simpl. by rewrite H. Qed.

Lemma lex_word_True (s : str) (b : bool) : lex [] (word b ++ s) = lex (word b) s.
Proof. destruct b; reflexivity. Qed.

Lemma char_text_variable (a : N → bool) (c : N) :
  is_variable c = true →
  char_text a c = word (a c) ∧ char_tokens a c = [if a c then TTrue else TFalse].
Proof. intros H. unfold char_text, char_tokens. by rewrite H. Qed.

Lemma char_text_other (a : N → bool) (c : N) :
  is_variable c = false →
  char_text a c = connectives [c] ∧
  char_tokens a c = char_tokens (fun _ => false) c.
Proof. intros H. unfold char_text, char_tokens. by rewrite H. Qed.

Lemma lex_wellspaced (a : N → bool) (s : str) :
  ∀ (w : str) (pv : bool),
    wellspaced pv s = true →
    (if pv then ∃ b, w = word b else w = []) →
    lex w (s ≫= char_text a) = emit_word w (Some (s ≫= char_tokens a)).
Proof.
  induction s as [|c s IH]; intros w pv Hs Hw; [done|].
  simpl in Hs. apply andb_true_iff in Hs as [Hs Hrest].
  apply andb_true_iff in Hs as [Ha Hc].
  rewrite !bind_cons.
  destruct (in_alphabet_cases c Ha) as [Hv|[Hv Hcase]].
  - rewrite Hv in Hc, Hrest. destruct pv; [by rewrite andb_true_r in Hc|]. subst w.
    destruct (char_text_variable a c Hv) as [-> ->].
    rewrite lex_word_True. rewrite (IH (word (a c)) true Hrest) by eauto.
    by destruct (a c).
  - rewrite Hv in Hrest. specialize (IH [] false Hrest eq_refl).
    destruct (char_text_other a c Hv) as [-> ->].
    destruct Hcase as [->|[->|[->|[->|[->|[->|[->|[->| ->]]]]]]]].
    + destruct pv; [done|]. subst w.
      change (lex [] (connectives [c_not] ++ s ≫= char_text a))
        with (emit_word [110; 111; 116] (lex [] (s ≫= char_text a))).
      by rewrite IH.
    + change (lex w (connectives [c_and] ++ s ≫= char_text a))
        with (emit_word w (emit_word [97; 110; 100] (lex [] (s ≫= char_text a)))).
      by rewrite IH.
    + change (lex w (connectives [c_or] ++ s ≫= char_text a))
        with (emit_word w (emit_word [111; 114] (lex [] (s ≫= char_text a)))).
      by rewrite IH.
    + change (lex w (connectives [c_imp] ++ s ≫= char_text a))
        with (emit_word w (cons TLe <$> lex [] (s ≫= char_text a))).
      by rewrite IH.
    + change (lex w (connectives [c_iff] ++ s ≫= char_text a))
        with (emit_word w (cons TEq <$> lex [] (s ≫= char_text a))).
      by rewrite IH.
    + change (lex w (connectives [c_lpar] ++ s ≫= char_text a))
        with (emit_word w (cons TLpar <$> lex [] (s ≫= char_text a))).
      by rewrite IH.
    + change (lex w (connectives [c_rpar] ++ s ≫= char_text a))
        with (emit_word w (cons TRpar <$> lex [] (s ≫= char_text a))).
      by rewrite IH.
    + change (lex w (connectives [32] ++ s ≫= char_text a))
        with (emit_word w (lex [] (s ≫= char_text a))).
      by rewrite IH.
    + change (lex w (connectives [9] ++ s ≫= char_text a))
        with (emit_word w (lex [] (s ≫= char_text a))).
      by rewrite IH.
Qed.

Lemma tokenize_wellspaced (a : N → bool) (s : str) :
  wellspaced false s = true →
  tokenize (s ≫= char_text a) = Some (s ≫= char_tokens a).
Proof. intros Hs. unfold tokenize. by rewrite (lex_wellspaced a s [] false). Qed.

Lemma existsb_bind {A} (P : N → bool) (f : A → str) (l : list A) :
  (∀ x, x ∈ l → existsb P (f x) = false) → existsb P (l ≫= f) = false.
Proof.
  induction l as [|x l IH]; intros H; [done|].
  rewrite bind_cons, existsb_app, (H x) by left. simpl. apply IH.
  intros y Hy. apply H. by right.
Qed.

Lemma char_text_plain (a : N → bool) (c : N) :
  in_alphabet c = true →
  existsb opaque_char (char_text a c) = false ∧
  existsb illegal_char (char_text a c) = false.
Proof.
  intros Ha.
  destruct (in_alphabet_cases c Ha) as [Hv|[Hv Hcase]].
  - destruct (char_text_variable a c Hv) as [-> _]. by destruct (a c).
  - destruct (char_text_other a c Hv) as [-> _].
    by destruct Hcase as [->|[->|[->|[->|[->|[->|[->|[->| ->]]]]]]]].
Qed.

Lemma wellspaced_alphabet (s : str) (pv : bool) :
  wellspaced pv s = true → ∀ c, c ∈ s → in_alphabet c = true.
Proof.
  revert pv. induction s as [|c s IH]; intros pv Hs c' Hc'.
  - by apply elem_of_nil in Hc'.
  - simpl in Hs. apply andb_true_iff in Hs as [Hs Hrest].
    apply andb_true_iff in Hs as [Ha _].
    apply elem_of_cons in Hc' as [->|Hc']; [done|]. by apply (IH _ Hrest).
Qed.

(** On a well-spaced formula and an assignment covering its variables,
    [evaluate_formula] is the Python reading of the formula's tokens. *)
Lemma evaluate_wellspaced (s : str) (tv : dict) :
  assignment tv → wellspaced false s = true → covers tv s →
  evaluate_formula s tv = verdict (py_parse (s ≫= char_tokens (valuation tv))).
Proof.
  intros Ha Hs Hc. unfold evaluate_formula, py_eval.
  rewrite translate_wellspaced by done.
  rewrite !existsb_bind.
  2,3: intros c Hin; apply char_text_plain; by apply (wellspaced_alphabet s false).
  rewrite tokenize_wellspaced by done.
  by destruct (py_parse _) as [e r| | |].
Qed.

(** ** Parsing a formula whose grouping is explicit *)

Lemma p_atom_const (n : nat) (b : bool) (rest : list token) :
  starts_with_token TLpar rest = false →
  p_atom (S n) ((if b then TTrue else TFalse) :: rest) = Parsed (EConst b) rest.
Proof. intros H. destruct b, rest as [|[] rest]; try done. Qed.

Lemma p_atom_group (n : nat) (e : pyexpr) (ts rest : list token) :
  ts ≠ [] → starts_with_token TRpar ts = false →
  starts_with_token TLpar rest = false →
  p_disj n (ts ++ TRpar :: rest) = Parsed e (TRpar :: rest) →
  p_atom (S n) (TLpar :: ts ++ TRpar :: rest) = Parsed e rest.
Proof.
  intros Hne Hts Hrest Hd.
  destruct ts as [|t ts]; [done|]. simpl in *.
  destruct t; try done; rewrite Hd; simpl; by destruct rest as [|[] rest].
Qed.

Lemma p_chain_end (n : nat) (rest : list token) :
  starts_with_token TLe rest = false → starts_with_token TEq rest = false →
  p_chain (S n) rest = Parsed NoLink rest.
Proof. intros H1 H2. by destruct rest as [|[] rest]. Qed.

(** An atom that no comparison follows is a comparison, an inversion, a
    conjunction and a disjunction, as far as no operator of the level
    follows. *)
Lemma p_comp_atom (n : nat) (e : pyexpr) (ts rest : list token) :
  p_atom (S n) ts = Parsed e rest →
  starts_with_token TLe rest = false → starts_with_token TEq rest = false →
  p_comp (S (S n)) ts = Parsed e rest.
Proof.
  intros Ha H1 H2. change (p_comp (S (S n)) ts)
    with (pbind (p_atom (S n) ts) (fun e r =>
            pbind (p_chain (S n) r) (fun c r' =>
              Parsed (match c with NoLink => e | Link _ _ _ => ECompare e c end) r'))).
  rewrite Ha. cbn [pbind]. by rewrite p_chain_end.
Qed.

Lemma p_comp_link (n : nat) (op : cmpop) (e e' : pyexpr) (ts ts' rest : list token) :
  p_atom (S (S n)) ts = Parsed e ((match op with Le => TLe | Eq => TEq end) :: ts') →
  p_atom (S n) ts' = Parsed e' rest →
  starts_with_token TLe rest = false → starts_with_token TEq rest = false →
  p_comp (S (S (S n))) ts = Parsed (ECompare e (Link op e' NoLink)) rest.
Proof.
  intros Ha Ha' H1 H2. change (p_comp (S (S (S n))) ts)
    with (pbind (p_atom (S (S n)) ts) (fun e r =>
            pbind (p_chain (S (S n)) r) (fun c r' =>
              Parsed (match c with NoLink => e | Link _ _ _ => ECompare e c end) r'))).
  rewrite Ha. cbn [pbind].
  destruct op.
  - change (p_chain (S (S n)) (TLe :: ts'))
      with (pbind (p_atom (S n) ts') (fun e r' =>
              pbind (p_chain (S n) r') (fun c r'' => Parsed (Link Le e c) r''))).
    rewrite Ha'. cbn [pbind]. by rewrite p_chain_end.
  - change (p_chain (S (S n)) (TEq :: ts'))
      with (pbind (p_atom (S n) ts') (fun e r' =>
              pbind (p_chain (S n) r') (fun c r'' => Parsed (Link Eq e c) r''))).
    rewrite Ha'. cbn [pbind]. by rewrite p_chain_end.
Qed.

Lemma p_inv_comp (n : nat) (ts : list token) :
  starts_with_token TNot ts = false → p_inv (S n) ts = p_comp n ts.
Proof. intros H. by destruct ts as [|[] ts]. Qed.

Lemma p_inv_not (n : nat) (e : pyexpr) (ts rest : list token) :
  p_inv n ts = Parsed e rest → p_inv (S n) (TNot :: ts) = Parsed (ENot e) rest.
Proof. intros H. simpl. by rewrite H. Qed.

Lemma p_conj_inv (n : nat) (e : pyexpr) (ts rest : list token) :
  p_inv n ts = Parsed e rest → starts_with_token TAnd rest = false →
  p_conj (S n) ts = Parsed e rest.
Proof. intros H Hr. simpl. rewrite H. simpl. by destruct rest as [|[] rest]. Qed.

Lemma p_conj_and (n : nat) (e e' : pyexpr) (ts ts' rest : list token) :
  p_inv n ts = Parsed e (TAnd :: ts') → p_conj n ts' = Parsed e' rest →
  p_conj (S n) ts = Parsed (EAnd e e') rest.
Proof. intros H H'. simpl. rewrite H. simpl. by rewrite H'. Qed.

Lemma p_disj_conj (n : nat) (e : pyexpr) (ts rest : list token) :
  p_conj n ts = Parsed e rest → starts_with_token TOr rest = false →
  p_disj (S n) ts = Parsed e rest.
Proof. intros H Hr. simpl. rewrite H. simpl. by destruct rest as [|[] rest]. Qed.

Lemma p_disj_or (n : nat) (e e' : pyexpr) (ts ts' rest : list token) :
  p_conj n ts = Parsed e (TOr :: ts') → p_disj n ts' = Parsed e' rest →
  p_disj (S n) ts = Parsed (EOr e e') rest.
Proof. intros H H'. simpl. rewrite H. simpl. by rewrite H'. Qed.

(** From an atom up to a disjunction when the rest closes the formula. *)
Lemma p_levels_atom (n : nat) (e : pyexpr) (ts rest : list token) :
  p_atom (S n) ts = Parsed e rest →
  starts_with_token TNot ts = false →
  closing rest = true →
  p_comp (S (S n)) ts = Parsed e rest ∧
  p_inv (S (S (S n))) ts = Parsed e rest ∧
  p_conj (S (S (S (S n)))) ts = Parsed e rest ∧
  p_disj (S (S (S (S (S n))))) ts = Parsed e rest.
Proof.
  intros Ha Hn Hc.
  assert (Hcomp : p_comp (S (S n)) ts = Parsed e rest).
  { apply p_comp_atom; [done| |]; by destruct rest as [|[] rest]. }
  assert (Hinv : p_inv (S (S (S n))) ts = Parsed e rest).
  { by rewrite p_inv_comp. }
  assert (Hconj : p_conj (S (S (S (S n)))) ts = Parsed e rest).
  { apply p_conj_inv; [done|]. by destruct rest as [|[] rest]. }
  split_and!; try done.
  apply p_disj_conj; [done|]. by destruct rest as [|[] rest].
Qed.

Lemma is_variable_char_of (v : variable) : is_variable (char_of v) = true.
Proof. by destruct v. Qed.

Section Rendering.
Variable a : N → bool.

Local Abbreviation tokens s := (s ≫= char_tokens a).

Lemma tokens_variable (v : variable) :
  tokens [char_of v] = [if a (char_of v) then TTrue else TFalse].
Proof.
  change (tokens [char_of v]) with (char_tokens a (char_of v) ++ []). rewrite app_nil_r.
  by destruct (char_text_variable a _ (is_variable_char_of v)) as [_ ->].
Qed.

Lemma tokens_group (f : form) :
  tokens ([c_lpar] ++ render f ++ [c_rpar]) = TLpar :: tokens (render f) ++ [TRpar].
Proof. by rewrite !bind_app. Qed.

Lemma tokens_not (f : form) : tokens (render (Not f)) = TNot :: tokens (operand f).
Proof. change (render (Not f)) with ([c_not] ++ operand f). by rewrite bind_app. Qed.

Lemma tokens_and (f g : form) :
  tokens (render (And f g)) = tokens (operand f) ++ TAnd :: tokens (operand g).
Proof.
  change (render (And f g)) with (operand f ++ [c_and] ++ operand g).
  by rewrite !bind_app.
Qed.

Lemma tokens_or (f g : form) :
  tokens (render (Or f g)) = tokens (operand f) ++ TOr :: tokens (operand g).
Proof.
  change (render (Or f g)) with (operand f ++ [c_or] ++ operand g).
  by rewrite !bind_app.
Qed.

Lemma tokens_implies (f g : form) :
  tokens (render (Implies f g)) = tokens (operand f) ++ TLe :: tokens (operand g).
Proof.
  change (render (Implies f g)) with (operand f ++ [c_imp] ++ operand g).
  by rewrite !bind_app.
Qed.

Lemma tokens_iff (f g : form) :
  tokens (render (Iff f g)) = tokens (operand f) ++ TEq :: tokens (operand g).
Proof.
  change (render (Iff f g)) with (operand f ++ [c_iff] ++ operand g).
  by rewrite !bind_app.
Qed.

(** An operand starts with [True], [False] or an opening parenthesis. *)
Lemma tokens_operand_head (f : form) :
  ∃ t ts, tokens (operand f) = t :: ts ∧ (t = TTrue ∨ t = TFalse ∨ t = TLpar).
Proof.
  destruct f; try (eexists _, _; split; [apply tokens_group|]; tauto).
  exists (if a (char_of v) then TTrue else TFalse), [].
  split; [apply tokens_variable|]. destruct (a (char_of v)); tauto.
Qed.

Lemma tokens_render_head (f : form) :
  ∃ t ts, tokens (render f) = t :: ts ∧ t ≠ TRpar.
Proof.
  destruct f.
  - eexists _, _. split; [apply tokens_variable|]. by destruct (a (char_of v)).
  - eexists _, _. split; [apply tokens_not|done].
  - destruct (tokens_operand_head f1) as (t & ts & Ht & Hc).
    rewrite tokens_and, Ht. eexists _, _. split; [done|]. naive_solver.
  - destruct (tokens_operand_head f1) as (t & ts & Ht & Hc).
    rewrite tokens_or, Ht. eexists _, _. split; [done|]. naive_solver.
  - destruct (tokens_operand_head f1) as (t & ts & Ht & Hc).
    rewrite tokens_implies, Ht. eexists _, _. split; [done|]. naive_solver.
  - destruct (tokens_operand_head f1) as (t & ts & Ht & Hc).
    rewrite tokens_iff, Ht. eexists _, _. split; [done|]. naive_solver.
Qed.

Lemma operand_not_not (f : form) (rest : list token) :
  starts_with_token TNot (tokens (operand f) ++ rest) = false.
Proof.
  destruct (tokens_operand_head f) as (t & ts & -> & [->|[->| ->]]); done.
Qed.

(** An operand is an atom, given that its formula parses. *)
Lemma parse_operand (f : form) :
  (∀ n rest, (6 * depth f ≤ n)%nat → closing rest = true →
     p_disj n (tokens (render f) ++ rest) = Parsed (python_tree a f) rest) →
  ∀ n rest, (6 * depth f + 1 ≤ n)%nat → starts_with_token TLpar rest = false →
    p_atom n (tokens (operand f) ++ rest) = Parsed (python_tree a f) rest.
Proof.
  intros Hf n rest Hn Hrest. destruct n as [|n]; [lia|].
  assert (Hgroup : p_atom (S n) (tokens ([c_lpar] ++ render f ++ [c_rpar]) ++ rest)
                   = Parsed (python_tree a f) rest).
  { rewrite tokens_group. simpl app. rewrite <- app_assoc. simpl app.
    destruct (tokens_render_head f) as (t & ts & Ht & Hne).
    apply p_atom_group.
    - by rewrite Ht.
    - rewrite Ht. by destruct t.
    - done.
    - apply Hf; [lia|done]. }
  destruct f; try exact Hgroup.
  change (operand (Var v)) with [char_of v].
  rewrite tokens_variable. by apply p_atom_const.
Qed.

Lemma parse_render (f : form) :
  ∀ n rest, (6 * depth f ≤ n)%nat → closing rest = true →
    p_disj n (tokens (render f) ++ rest) = Parsed (python_tree a f) rest.
Proof.
  induction f as [v|f IH|f IHf g IHg|f IHf g IHg|f IHf g IHg|f IHf g IHg];
    intros n rest Hn Hrest; simpl in Hn.
  - destruct n as [|[|[|[|[|n]]]]]; try lia.
    change (render (Var v)) with [char_of v].
    rewrite tokens_variable. apply p_levels_atom; try done.
    + apply p_atom_const. by destruct rest as [|[] rest].
    + by destruct (a (char_of v)).
  - destruct n as [|[|[|[|[|[|n]]]]]]; try lia.
    rewrite tokens_not.
    assert (Ha : p_atom (S n) (tokens (operand f) ++ rest) = Parsed (python_tree a f) rest).
    { apply parse_operand; [done|lia|]. by destruct rest as [|[] rest]. }
    destruct (p_levels_atom n _ _ _ Ha (operand_not_not f rest) Hrest) as (_ & Hi & _).
    apply p_disj_conj; [|by destruct rest as [|[] rest]].
    apply p_conj_inv; [|by destruct rest as [|[] rest]].
    by apply p_inv_not.
  - destruct n as [|[|[|[|[|[|n]]]]]]; try lia.
    rewrite tokens_and, <- app_assoc. simpl app.
    assert (Ha : p_atom (S (S n)) (tokens (operand f) ++ TAnd :: tokens (operand g) ++ rest)
                 = Parsed (python_tree a f) (TAnd :: tokens (operand g) ++ rest)).
    { apply parse_operand; [done|lia|done]. }
    assert (Hb : p_atom (S n) (tokens (operand g) ++ rest) = Parsed (python_tree a g) rest).
    { apply parse_operand; [done|lia|]. by destruct rest as [|[] rest]. }
    destruct (p_levels_atom n _ _ _ Hb (operand_not_not g rest) Hrest) as (_ & _ & Hc & _).
    apply p_disj_conj; [|by destruct rest as [|[] rest]].
    eapply p_conj_and; [|exact Hc].
    rewrite p_inv_comp by apply operand_not_not. by apply p_comp_atom.
  - destruct n as [|[|[|[|[|[|n]]]]]]; try lia.
    rewrite tokens_or, <- app_assoc. simpl app.
    assert (Ha : p_atom (S (S n)) (tokens (operand f) ++ TOr :: tokens (operand g) ++ rest)
                 = Parsed (python_tree a f) (TOr :: tokens (operand g) ++ rest)).
    { apply parse_operand; [done|lia|done]. }
    assert (Hb : p_atom (S n) (tokens (operand g) ++ rest) = Parsed (python_tree a g) rest).
    { apply parse_operand; [done|lia|]. by destruct rest as [|[] rest]. }
    destruct (p_levels_atom n _ _ _ Hb (operand_not_not g rest) Hrest) as (_ & _ & _ & Hd).
    eapply p_disj_or; [|exact Hd].
    apply p_conj_inv; [|done].
    rewrite p_inv_comp by apply operand_not_not. by apply p_comp_atom.
  - destruct n as [|[|[|[|[|[|n]]]]]]; try lia.
    rewrite tokens_implies, <- app_assoc. simpl app.
    assert (Ha : p_atom (S (S n)) (tokens (operand f) ++ TLe :: tokens (operand g) ++ rest)
                 = Parsed (python_tree a f) (TLe :: tokens (operand g) ++ rest)).
    { apply parse_operand; [done|lia|done]. }
    assert (Hb : p_atom (S n) (tokens (operand g) ++ rest) = Parsed (python_tree a g) rest).
    { apply parse_operand; [done|lia|]. by destruct rest as [|[] rest]. }
    apply p_disj_conj; [|by destruct rest as [|[] rest]].
    apply p_conj_inv; [|by destruct rest as [|[] rest]].
    rewrite p_inv_comp by apply operand_not_not.
    eapply (p_comp_link n Le); [exact Ha|exact Hb| |]; by destruct rest as [|[] rest].
  - destruct n as [|[|[|[|[|[|n]]]]]]; try lia.
    rewrite tokens_iff, <- app_assoc. simpl app.
    assert (Ha : p_atom (S (S n)) (tokens (operand f) ++ TEq :: tokens (operand g) ++ rest)
                 = Parsed (python_tree a f) (TEq :: tokens (operand g) ++ rest)).
    { apply parse_operand; [done|lia|done]. }
    assert (Hb : p_atom (S n) (tokens (operand g) ++ rest) = Parsed (python_tree a g) rest).
    { apply parse_operand; [done|lia|]. by destruct rest as [|[] rest]. }
    apply p_disj_conj; [|by destruct rest as [|[] rest]].
    apply p_conj_inv; [|by destruct rest as [|[] rest]].
    rewrite p_inv_comp by apply operand_not_not.
    eapply (p_comp_link n Eq); [exact Ha|exact Hb| |]; by destruct rest as [|[] rest].
Qed.

Lemma length_tokens_operand (f : form) :
  (length (tokens (render f)) ≤ length (tokens (operand f)))%nat.
Proof.
  destruct f; try done;
    (etransitivity; [|apply Nat.eq_le_incl; symmetry;
                      apply (f_equal length), tokens_group]);
    simpl; rewrite length_app; lia.
Qed.

Lemma depth_length_tokens (f : form) : (depth f ≤ length (tokens (render f)))%nat.
Proof.
  induction f as [v|f IH|f IHf g IHg|f IHf g IHg|f IHf g IHg|f IHf g IHg]; simpl depth.
  - change (render (Var v)) with [char_of v]. by rewrite tokens_variable.
  - rewrite tokens_not. simpl. pose proof (length_tokens_operand f). lia.
  - rewrite tokens_and, length_app. simpl.
    pose proof (length_tokens_operand f). pose proof (length_tokens_operand g). lia.
  - rewrite tokens_or, length_app. simpl.
    pose proof (length_tokens_operand f). pose proof (length_tokens_operand g). lia.
  - rewrite tokens_implies, length_app. simpl.
    pose proof (length_tokens_operand f). pose proof (length_tokens_operand g). lia.
  - rewrite tokens_iff, length_app. simpl.
    pose proof (length_tokens_operand f). pose proof (length_tokens_operand g). lia.
Qed.

Lemma py_parse_render (f : form) :
  py_parse (tokens (render f)) = Parsed (python_tree a f) [].
Proof.
  unfold py_parse.
  rewrite <- (app_nil_r (tokens (render f))) at 2.
  rewrite parse_render; [done| |done].
  unfold parse_fuel. pose proof (depth_length_tokens f). lia.
Qed.

Lemma py_value_python_tree (f : form) : py_value (python_tree a f) = holds a f.
Proof.
  induction f as [v|f IH|f IHf g IHg|f IHf g IHg|f IHf g IHg|f IHf g IHg]; simpl;
    rewrite ?IH, ?IHf, ?IHg; try done.
  - by destruct (holds a f), (holds a g).
  - by destruct (holds a f), (holds a g).
Qed.
End Rendering.

Lemma wellspaced_app_free (s t : str) (pv : bool) :
  wellspaced pv s = true → (∀ pv', wellspaced pv' t = true) →
  wellspaced pv (s ++ t) = true.
Proof.
  revert pv. induction s as [|c s IH]; intros pv Hs Ht; simpl; [apply Ht|].
  simpl in Hs. apply andb_true_iff in Hs as [-> Hs]. simpl. by apply IH.
Qed.

Lemma wellspaced_connective (c : N) (s : str) (pv : bool) :
  in_alphabet c = true → is_variable c = false → c ≠ c_not →
  wellspaced false s = true → wellspaced pv (c :: s) = true.
Proof.
  intros Ha Hv Hn Hs. simpl. rewrite Ha, Hv, Hs.
  apply N.eqb_neq in Hn. rewrite Hn. by destruct pv.
Qed.

Lemma wellspaced_render (f : form) :
  wellspaced false (render f) = true ∧ wellspaced false (operand f) = true.
Proof.
  assert (Hop : ∀ f, wellspaced false (render f) = true → wellspaced false (operand f) = true).
  { intros g Hg. destruct g; try done;
      (apply (wellspaced_connective c_lpar); try done;
       apply wellspaced_app_free; [done|]; by intros []). }
  assert (Hbin : ∀ c f g, in_alphabet c = true → is_variable c = false → c ≠ c_not →
            wellspaced false (operand f) = true → wellspaced false (operand g) = true →
            wellspaced false (operand f ++ [c] ++ operand g) = true).
  { intros c g h Ha Hv Hn Hg Hh. apply wellspaced_app_free; [done|].
    intros pv. by apply wellspaced_connective. }
  induction f as [v|f [IH1 IH2]|f [IHf1 IHf2] g [IHg1 IHg2]|f [IHf1 IHf2] g [IHg1 IHg2]
                 |f [IHf1 IHf2] g [IHg1 IHg2]|f [IHf1 IHf2] g [IHg1 IHg2]].
  - by destruct v.
  - assert (H : wellspaced false (render (Not f)) = true).
    { change (render (Not f)) with (c_not :: operand f).
      change (wellspaced false (c_not :: operand f))
        with (wellspaced false (operand f)). done. }
    split; [done|by apply Hop].
  - assert (H : wellspaced false (render (And f g)) = true) by (by apply (Hbin c_and)).
    split; [done|by apply Hop].
  - assert (H : wellspaced false (render (Or f g)) = true) by (by apply (Hbin c_or)).
    split; [done|by apply Hop].
  - assert (H : wellspaced false (render (Implies f g)) = true) by (by apply (Hbin c_imp)).
    split; [done|by apply Hop].
  - assert (H : wellspaced false (render (Iff f g)) = true) by (by apply (Hbin c_iff)).
    split; [done|by apply Hop].
Qed.


Lemma covers_all (tv : dict) (s : str) :
  (∀ v : variable, is_Some (dict_get tv [char_of v])) → covers tv s.
Proof.
  intros H c _ Hv.
  destruct (is_variable_cases c Hv) as [->|[->|[->| ->]]];
    [apply (H Vp)|apply (H Vq)|apply (H Vr)|apply (H Vs)].
Qed.


(** ** Precedence *)

Lemma valuation_letter (tv : dict) (c : N) (b : bool) :
  dict_get tv [c] = Some (letter b) → valuation tv c = b.
Proof. unfold valuation, truth. intros ->. by destruct b. Qed.


Lemma token_of_variable (a : N → bool) (v : variable) :
  char_tokens a (char_of v) = [if a (char_of v) then TTrue else TFalse].
Proof. by destruct (char_text_variable a _ (is_variable_char_of v)). Qed.

(** Every variable of a short text is among the given ones. *)
Ltac covered :=
  let c := fresh "c" in
  let Hc := fresh "Hc" in
  let Hv := fresh "Hv" in
  intros c Hc Hv;
  repeat (apply elem_of_cons in Hc as [->|Hc]; [done || assumption|]);
  by apply elem_of_nil in Hc.

(** Reads a text of variables [x], [y], [z] and connectives through
    [evaluate_wellspaced] and runs the parser on its tokens. *)
Ltac read_text Ha x y z X Y Z :=
  rewrite evaluate_wellspaced;
  [ | exact Ha | by destruct x, y, z | covered ];
  cbn [mbind list_bind]; rewrite ?token_of_variable;
  subst X Y Z; cbv zeta;
  repeat match goal with
         | |- context [valuation ?t ?c] => destruct (valuation t c)
         end;
  reflexivity.



(** ** Characters outside the alphabet *)

Lemma replace_single (old : N) (new : str) (c : N) :
  replace old new [c] = if c =? old then new else [c].
Proof. unfold replace. simpl. by rewrite app_nil_r. Qed.

Lemma connectives_other (c : N) : is_connective c = false → connectives [c] = [c].
Proof.
  unfold is_connective. rewrite !orb_false_iff. intros [[[[H1 H2] H3] H4] H5].
  unfold connectives. cbv zeta.
  by rewrite replace_single, H1, replace_single, H2, replace_single, H3,
    replace_single, H4, replace_single, H5.
Qed.

Lemma connectives_connective (c : N) :
  is_connective c = true →
  existsb opaque_char (connectives [c]) = false ∧
  existsb illegal_char (connectives [c]) = false.
Proof.
  unfold is_connective. rewrite !orb_true_iff, !N.eqb_eq.
  by intros [[[[->| ->]| ->]| ->]| ->].
Qed.

Lemma existsb_bind_true {A} (P : N → bool) (f : A → str) (l : list A) (x : A) :
  x ∈ l → existsb P (f x) = true → existsb P (l ≫= f) = true.
Proof.
  intros Hx Hf. induction l as [|y l IH]; [by apply elem_of_nil in Hx|].
  rewrite bind_cons, existsb_app. apply elem_of_cons in Hx as [<-|Hx].
  - by rewrite Hf.
  - rewrite IH by done. apply orb_true_r.
Qed.

Lemma replaces_cell (formula : str) (cs : list cell) (x : cell) :
  replaces formula cs → x ∈ cs →
  (∃ c, c ∈ formula ∧ x = Orig c) ∨ (∃ b, x = Subst b).
Proof.
  intros H Hx. induction H as [|c y f cs Hy H IH]; [by apply elem_of_nil in Hx|].
  apply elem_of_cons in Hx as [->|Hx].
  - destruct Hy as [->|[_ [b ->]]]; [left|right; eauto]. exists c. split; [left|done].
  - destruct (IH Hx) as [(c' & ? & ?)|?]; [left|by right]. exists c'. split; [by right|done].
Qed.

Lemma replaces_keeps (formula : str) (cs : list cell) (c : N) :
  replaces formula cs → c ∈ formula → is_variable c = false → Orig c ∈ cs.
Proof.
  intros H Hc Hv. induction H as [|c' y f cs Hy H IH]; [by apply elem_of_nil in Hc|].
  apply elem_of_cons in Hc as [<-|Hc].
  - destruct Hy as [->|[? _]]; [left|congruence].
  - right. by apply IH.
Qed.

Lemma substitute_replaces (formula : str) (tv : dict) :
  assignment tv →
  ∃ cs, replaces formula cs ∧ substitute formula tv = cells_text cs.
Proof.
  intros [_ Hk]. exists (foldl mark_entry (Orig <$> formula) tv). split.
  - apply replaces_mark_all; [done|apply replaces_Orig].
  - rewrite <- (cells_text_Orig formula) at 1. by apply substitute_cells.
Qed.

Lemma evaluate_formula_illegal (formula : str) (tv : dict) :
  assignment tv →
  (∃ c, c ∈ formula ∧ illegal_char c = true) →
  (∀ c, c ∈ formula → opaque_char c = false ∨ is_connective c = true) →
  evaluate_formula formula tv = Raises.
Proof.
  intros Ha (c0 & Hc0 & Hill) Hplain.
  destruct (substitute_replaces formula tv Ha) as (cs & Hcs & Hs).
  unfold evaluate_formula, py_eval. rewrite Hs. unfold cells_text.
  rewrite connectives_bind.
  rewrite existsb_bind.
  2:{ intros x Hx. destruct (replaces_cell _ _ _ Hcs Hx) as [(c & Hc & ->)|[b ->]].
      - simpl. destruct (is_connective c) eqn:E.
        + by apply connectives_connective.
        + rewrite connectives_other by done. simpl.
          destruct (Hplain c Hc) as [->|?]; [done|congruence].
      - simpl. rewrite connectives_word. by destruct b. }
  rewrite (existsb_bind_true _ _ _ (Orig c0)); [done| |].
  - apply (replaces_keeps formula); [done|done|].
    unfold illegal_char in Hill. rewrite !orb_true_iff, !N.eqb_eq in Hill.
    by destruct Hill as [[->| ->]| ->].
  - simpl. rewrite connectives_other.
    + simpl. by rewrite Hill.
    + unfold illegal_char in Hill. rewrite !orb_true_iff, !N.eqb_eq in Hill.
      by destruct Hill as [[->| ->]| ->].
Qed.

Lemma extract_variables_names (formula : str) :
  Forall (fun k => variable_name k = true) (extract_variables formula).
Proof.
  apply Forall_forall. intros v Hv.
  apply elem_of_extract_variables in Hv as (c & -> & Hc & _). done.
Qed.

Lemma NoDup_extract_variables (formula : str) : NoDup (extract_variables formula).
Proof. apply NoDup_sorted. Qed.

(** Every row of the enumeration over distinct variable names is an
    assignment. *)
Lemma combinations_assignments (variables : list str) :
  NoDup variables → Forall (fun k => variable_name k = true) variables →
  Forall assignment (generate_truth_combinations variables).
Proof.
  intros Hnd Hk. apply Forall_forall. intros combo Hc.
  unfold generate_truth_combinations in Hc.
  apply list_elem_of_fmap in Hc as (i & -> & _).
  unfold assignment. by rewrite combination_keys.
Qed.

Lemma generate_truth_combinations_cons (variables : list str) :
  ∃ combo rest, generate_truth_combinations variables = combo :: rest.
Proof.
  pose proof (length_generate_truth_combinations variables) as H.
  destruct (generate_truth_combinations variables) as [|combo rest]; [|eauto].
  simpl in H. pose proof (Nat.pow_nonzero 2 (length variables)). lia.
Qed.

(** The sentence of the specification fails on the code: [p∨True] has characters outside the alphabet, and it
    evaluates and is tabulated. *)
Lemma unexpected_character_accepted :
  ¬ (∀ formula tv, assignment tv → (∃ c, c ∈ formula ∧ in_alphabet c = false) →
       evaluate_formula formula tv = Raises)
  ∧ ∃ tt, truth_table_generator (u "p∨True") = Shown tt.
Proof.
  split.
  - intros H. specialize (H (u "p∨True") [(u "p", s_F)]).
    assert (Hne : @Returns str s_T ≠ Raises) by discriminate.
    apply Hne, H.
    + split; [distinct|by repeat constructor].
    + exists 117. split; [|done]. do 4 right. left.
  - eexists. vm_compute. reflexivity.
Qed.

(** C6, as the code has it.  No alphabet is checked: the text fails exactly
    when Python rejects what it is turned into.  In particular every text
    with a character that no Python token contains ([$], [?], the
    backquote) and otherwise made of connectives and printable ASCII
    characters other than quotes, [#] and the backslash fails with the
    format error, for every assignment; with a variable in it the table view
    shows that error.  Other characters outside the alphabet can pass, as in
    [p∨True]. *)
Theorem unexpected_character_rejected (formula : str) :
  (∃ c, c ∈ formula ∧ illegal_char c = true) →
  (∀ c, c ∈ formula → opaque_char c = false ∨ is_connective c = true) →
  (∀ tv, assignment tv → evaluate_formula formula tv = Raises) ∧
  (extract_variables formula ≠ [] →
   truth_table_generator formula = ErrorShown FormatError).
Proof.
  intros Hill Hplain. split.
  - intros tv Ha. by apply evaluate_formula_illegal.
  - intros Hv. unfold truth_table_generator.
    destruct formula as [|c f]; [by destruct Hill as (? & ?%elem_of_nil & _)|].
    destruct (extract_variables (c :: f)) as [|v vs] eqn:Ev; [done|]. rewrite <- Ev.
    destruct (generate_truth_combinations_cons (extract_variables (c :: f)))
      as (combo & rest & Hg).
    pose proof (combinations_assignments _ (NoDup_extract_variables (c :: f))
                  (extract_variables_names (c :: f))) as Hall.
    rewrite Hg in Hall |- *. apply Forall_cons in Hall as [Ha _].
    simpl. by rewrite evaluate_formula_illegal.
Qed.

Lemma unexpected_character_rejected_witness :
  (∃ c, c ∈ u "p$q" ∧ illegal_char c = true) ∧
  truth_table_generator (u "p$q") = ErrorShown FormatError.
Proof.
  assert (H1 : ∃ c, c ∈ u "p$q" ∧ illegal_char c = true).
  { exists 36. split; [|done]. right. left. }
  split; [exact H1|].
  apply (unexpected_character_rejected (u "p$q") H1).
  - intros c Hc. left.
    repeat (apply elem_of_cons in Hc as [->|Hc]; [done|]). by apply elem_of_nil in Hc.
  - discriminate.
Defined.

(** ** Blank input *)

Lemma extract_variables_none (formula : str) :
  (∀ c, c ∈ formula → is_variable c = false) → extract_variables formula = [].
Proof.
  intros H. apply elem_of_nil_inv. intros v Hv.
  apply elem_of_extract_variables in Hv as (c & _ & Hc & Hin).
  rewrite (H c Hin) in Hc. done.
Qed.

(** The sentence of the specification fails on the code: the empty text is no error at all, and a text of
    spaces gets the message of every text without a variable. *)
Lemma blank_input_counterexample :
  ¬ (∀ formula, Forall (fun c => is_space c = true) formula →
       ∃ m, truth_table_generator formula = ErrorShown m)
  ∧ truth_table_generator (u "  ") = truth_table_generator (u "xyz").
Proof.
  split; [|reflexivity].
  intros H. destruct (H []) as [m Hm]; [constructor|]. discriminate.
Qed.

(** C7, as the code has it.  There is no error for blank input: on the empty
    text the view shows nothing, and on a non-empty text without a variable,
    a text of blanks among them, it shows the no-variables message. *)
Theorem blank_input (formula : str) :
  (formula = [] → truth_table_generator formula = Blank) ∧
  (formula ≠ [] → Forall (fun c => is_space c = true) formula →
   truth_table_generator formula = ErrorShown NoVariables) ∧
  (formula ≠ [] → (∀ c, c ∈ formula → is_variable c = false) →
   truth_table_generator formula = ErrorShown NoVariables).
Proof.
  assert (G : formula ≠ [] → (∀ c, c ∈ formula → is_variable c = false) →
              truth_table_generator formula = ErrorShown NoVariables).
  { intros Hne Hv. unfold truth_table_generator.
    destruct formula as [|c f]; [done|]. by rewrite extract_variables_none. }
  split_and!; [by intros ->| |done].
  intros Hne Hs. apply G; [done|]. intros c Hc.
  rewrite Forall_forall in Hs. specialize (Hs c Hc).
  destruct (is_variable c) eqn:E; [|done].
  by destruct (is_variable_cases c E) as [->|[->|[->| ->]]].
Qed.

Lemma blank_input_witness :
  truth_table_generator (u "") = Blank ∧
  truth_table_generator (u "   ") = ErrorShown NoVariables.
Proof.
  split.
  - exact (proj1 (blank_input (u "")) eq_refl).
  - apply (proj1 (proj2 (blank_input (u "   ")))); [discriminate|].
    by repeat constructor.
Defined.

(** ** The parser: fuel and closing parentheses *)

Lemma p_disj_S (n : nat) (ts : list token) :
  p_disj (S n) ts
  = pbind (p_conj n ts) (fun e r =>
      match r with
      | TOr :: r' => pbind (p_disj n r') (fun e' r'' => Parsed (EOr e e') r'')
      | _ => Parsed e r
      end).
Proof. reflexivity. Qed.

Lemma p_conj_S (n : nat) (ts : list token) :
  p_conj (S n) ts
  = pbind (p_inv n ts) (fun e r =>
      match r with
      | TAnd :: r' => pbind (p_conj n r') (fun e' r'' => Parsed (EAnd e e') r'')
      | _ => Parsed e r
      end).
Proof. reflexivity. Qed.

Lemma p_inv_S (n : nat) (ts : list token) :
  p_inv (S n) ts
  = match ts with
    | TNot :: r => pbind (p_inv n r) (fun e r' => Parsed (ENot e) r')
    | _ => p_comp n ts
    end.
Proof. reflexivity. Qed.

Lemma p_comp_S (n : nat) (ts : list token) :
  p_comp (S n) ts
  = pbind (p_atom n ts) (fun e r =>
      pbind (p_chain n r) (fun c r' =>
        Parsed (match c with NoLink => e | Link _ _ _ => ECompare e c end) r')).
Proof. reflexivity. Qed.

Lemma p_chain_S (n : nat) (ts : list token) :
  p_chain (S n) ts
  = match ts with
    | TLe :: r =>
        pbind (p_atom n r) (fun e r' =>
          pbind (p_chain n r') (fun c r'' => Parsed (Link Le e c) r''))
    | TEq :: r =>
        pbind (p_atom n r) (fun e r' =>
          pbind (p_chain n r') (fun c r'' => Parsed (Link Eq e c) r''))
    | _ => Parsed NoLink ts
    end.
Proof. reflexivity. Qed.

Lemma p_atom_S (n : nat) (ts : list token) :
  p_atom (S n) ts
  = pbind
      (match ts with
       | TTrue :: r => Parsed (EConst true) r
       | TFalse :: r => Parsed (EConst false) r
       | TLpar :: TRpar :: _ => Outside
       | TLpar :: r =>
           pbind (p_disj n r) (fun e r' =>
             match r' with
             | TRpar :: r'' => Parsed e r''
             | _ => SyntaxError
             end)
       | _ => SyntaxError
       end)
      (fun e r => match r with
                  | TLpar :: _ => Outside
                  | _ => Parsed e r
                  end).
Proof. reflexivity. Qed.

(** What is parsed starts like an expression. *)
Lemma parsed_opens (n : nat) :
  (∀ ts e r, p_disj n ts = Parsed e r → opens ts = true) ∧
  (∀ ts e r, p_conj n ts = Parsed e r → opens ts = true) ∧
  (∀ ts e r, p_inv n ts = Parsed e r → opens ts = true) ∧
  (∀ ts e r, p_comp n ts = Parsed e r → opens ts = true) ∧
  (∀ ts e r, p_atom n ts = Parsed e r → opens ts = true).
Proof.
  induction n as [|n (IHd & IHc & IHi & IHm & IHa)]; [by split_and!|].
  split_and!; intros ts e r H.
  - rewrite p_disj_S in H. destruct (p_conj n ts) eqn:E; try done. eauto.
  - rewrite p_conj_S in H. destruct (p_inv n ts) eqn:E; try done. eauto.
  - rewrite p_inv_S in H. destruct ts as [|[] ts]; try done; eauto.
  - rewrite p_comp_S in H. destruct (p_atom n ts) eqn:E; try done. eauto.
  - rewrite p_atom_S in H. by destruct ts as [|[] ts].
Qed.

Lemma more_fuel (n : nat) : fuel_monotone n.
Proof.
  induction n as [|n (IHd & IHc & IHi & IHm & IHh & IHa)]; [by split_and!|].
  split_and!; intros ts e r H.
  - rewrite p_disj_S in H |- *. destruct (p_conj n ts) as [e1 r1| | |] eqn:E; try done.
    rewrite (IHc _ _ _ E). cbn [pbind] in *.
    destruct r1 as [|[] r1]; try done.
    destruct (p_disj n r1) as [e2 r2| | |] eqn:E2; try done. by rewrite (IHd _ _ _ E2).
  - rewrite p_conj_S in H |- *. destruct (p_inv n ts) as [e1 r1| | |] eqn:E; try done.
    rewrite (IHi _ _ _ E). cbn [pbind] in *.
    destruct r1 as [|[] r1]; try done.
    destruct (p_conj n r1) as [e2 r2| | |] eqn:E2; try done. by rewrite (IHc _ _ _ E2).
  - rewrite p_inv_S in H |- *. destruct ts as [|[] ts]; try (by apply IHm).
    destruct (p_inv n ts) as [e1 r1| | |] eqn:E; try done. by rewrite (IHi _ _ _ E).
  - rewrite p_comp_S in H |- *. destruct (p_atom n ts) as [e1 r1| | |] eqn:E; try done.
    rewrite (IHa _ _ _ E). cbn [pbind] in *.
    destruct (p_chain n r1) as [c2 r2| | |] eqn:E2; try done. by rewrite (IHh _ _ _ E2).
  - rewrite p_chain_S in H |- *. destruct ts as [|[] ts]; try done.
    + destruct (p_atom n ts) as [e1 r1| | |] eqn:E; try done.
      rewrite (IHa _ _ _ E). cbn [pbind] in *.
      destruct (p_chain n r1) as [c2 r2| | |] eqn:E2; try done. by rewrite (IHh _ _ _ E2).
    + destruct (p_atom n ts) as [e1 r1| | |] eqn:E; try done.
      rewrite (IHa _ _ _ E). cbn [pbind] in *.
      destruct (p_chain n r1) as [c2 r2| | |] eqn:E2; try done. by rewrite (IHh _ _ _ E2).
  - rewrite p_atom_S in H |- *. destruct ts as [|[] ts]; try done.
    destruct ts as [|t ts]; [|destruct t; try done];
      (destruct (p_disj n _) as [e1 r1| | |] eqn:E; [|done..];
       rewrite (IHd _ _ _ E); done).
Qed.

Lemma p_disj_fuel (n m : nat) (ts : list token) (e : pyexpr) (r : list token) :
  (n ≤ m)%nat → p_disj n ts = Parsed e r → p_disj m ts = Parsed e r.
Proof.
  induction 1 as [|m Hle IH]; [done|]. intros H.
  destruct (more_fuel m) as (Hd & _). auto.
Qed.

(** A closing parenthesis after a parsed text is left to the caller. *)
Lemma closing_parenthesis (x : list token) (n : nat) : closes n x.
Proof.
  induction n as [|n (IHd & IHc & IHi & IHm & IHh & IHa)]; [by split_and!|].
  destruct (parsed_opens n) as (Hod & Hoc & Hoi & Hom & Hoa).
  split_and!; intros ts e r H.
  - rewrite p_disj_S in H |- *. destruct (p_conj n ts) as [e1 r1| | |] eqn:E; try done.
    rewrite (IHc _ _ _ E). cbn [pbind] in *.
    destruct r1 as [|[] r1]; simpl; try (by injection H as <- <-).
    destruct (p_disj n r1) as [e2 r2| | |] eqn:E2; try done.
    rewrite (IHd _ _ _ E2). cbn [pbind] in *. by injection H as <- <-.
  - rewrite p_conj_S in H |- *. destruct (p_inv n ts) as [e1 r1| | |] eqn:E; try done.
    rewrite (IHi _ _ _ E). cbn [pbind] in *.
    destruct r1 as [|[] r1]; simpl; try (by injection H as <- <-).
    destruct (p_conj n r1) as [e2 r2| | |] eqn:E2; try done.
    rewrite (IHc _ _ _ E2). cbn [pbind] in *. by injection H as <- <-.
  - rewrite p_inv_S in H |- *. destruct ts as [|t ts].
    + by apply Hom in H.
    + destruct t; try exact (IHm _ _ _ H).
      simpl app. destruct (p_inv n ts) as [e1 r1| | |] eqn:E; try done.
      rewrite (IHi _ _ _ E). cbn [pbind] in *. by injection H as <- <-.
  - rewrite p_comp_S in H |- *. destruct (p_atom n ts) as [e1 r1| | |] eqn:E; try done.
    rewrite (IHa _ _ _ E). cbn [pbind] in *.
    destruct (p_chain n r1) as [c2 r2| | |] eqn:E2; try done.
    rewrite (IHh _ _ _ E2). cbn [pbind] in *. by injection H as <- <-.
  - rewrite p_chain_S in H |- *. destruct ts as [|[] ts]; simpl;
      try (by injection H as <- <-).
    + destruct (p_atom n ts) as [e1 r1| | |] eqn:E; try done.
      rewrite (IHa _ _ _ E). cbn [pbind] in *.
      destruct (p_chain n r1) as [c2 r2| | |] eqn:E2; try done.
      rewrite (IHh _ _ _ E2). cbn [pbind] in *. by injection H as <- <-.
    + destruct (p_atom n ts) as [e1 r1| | |] eqn:E; try done.
      rewrite (IHa _ _ _ E). cbn [pbind] in *.
      destruct (p_chain n r1) as [c2 r2| | |] eqn:E2; try done.
      rewrite (IHh _ _ _ E2). cbn [pbind] in *. by injection H as <- <-.
  - rewrite p_atom_S in H |- *. destruct ts as [|t ts]; [done|].
    destruct t; try done.
    + cbn [pbind] in *. destruct ts as [|[] ts]; simpl; try done;
        by injection H as <- <-.
    + cbn [pbind] in *. destruct ts as [|[] ts]; simpl; try done;
        by injection H as <- <-.
    + destruct ts as [|t ts].
      { destruct (p_disj n []) as [e1 r1| | |] eqn:E; try done. by apply Hod in E. }
      destruct t; try done;
        (match type of H with
         | context [p_disj n ?l] => destruct (p_disj n l) as [e1 r1| | |] eqn:E
         end; try done;
         pose proof (IHd _ _ _ E) as E'; cbn [app] in E' |- *; rewrite E';
         cbn [pbind] in *;
         destruct r1 as [|[] r1]; try done; simpl; cbn [pbind] in *;
         destruct r1 as [|[] r1]; simpl; try done; by injection H as <- <-).
Qed.

Lemma py_parse_negation (ts : list token) (e : pyexpr) (r : list token) :
  py_parse ts = Parsed e r →
  py_parse (TNot :: TLpar :: ts ++ [TRpar]) = Parsed (ENot e) [].
Proof.
  unfold py_parse. destruct (p_disj (parse_fuel ts) ts) as [e0 r0| | |] eqn:E; try done.
  cbn [pbind]. destruct r0 as [|t r0]; [|done]. intros [= <- <-].
  destruct (parsed_opens (parse_fuel ts)) as (Hod & _).
  pose proof (Hod _ _ _ E) as Hopen.
  set (m := (parse_fuel ts + 12)%nat).
  assert (Hd : p_disj m (ts ++ [TRpar]) = Parsed e0 [TRpar]).
  { apply (p_disj_fuel (parse_fuel ts)); [lia|].
    destruct (closing_parenthesis [] (parse_fuel ts)) as (Hcl & _).
    exact (Hcl _ _ _ E). }
  assert (Ha : p_atom (S m) (TLpar :: ts ++ [TRpar]) = Parsed e0 []).
  { rewrite p_atom_S. destruct ts as [|t ts]; [done|].
    destruct t; try done; cbn [app] in Hd |- *; rewrite Hd; done. }
  destruct (p_levels_atom m e0 (TLpar :: ts ++ [TRpar]) [] Ha eq_refl eq_refl) as (_ & Hi & _).
  replace (parse_fuel (TNot :: TLpar :: ts ++ [TRpar])) with (S (S (S (S (S (S m)))))).
  2:{ unfold m, parse_fuel. cbn [length]. rewrite length_app. cbn [length]. lia. }
  rewrite (p_disj_conj _ (ENot e0) _ []); [done| |done].
  apply p_conj_inv; [|done]. by apply p_inv_not.
Qed.

(** ** Lexing a text in parentheses *)

Lemma emit_word_fmap (w : str) (r : option (list token)) (x : list token) :
  (fun l => l ++ x) <$> emit_word w r = emit_word w ((fun l => l ++ x) <$> r).
Proof. destruct w as [|c w]; [done|]. simpl. by destruct (keyword _), r. Qed.

Lemma lex_closing (n : nat) :
  ∀ (s w : str), (length s ≤ n)%nat →
    lex w (s ++ [c_rpar]) = (fun l => l ++ [TRpar]) <$> lex w s.
Proof.
  induction n as [|n IH]; intros s w Hn.
  - destruct s; [|simpl in Hn; lia]. simpl. by rewrite emit_word_fmap.
  - destruct s as [|c s].
    + simpl. by rewrite emit_word_fmap.
    + simpl in Hn. simpl. destruct (is_word c); [apply IH; lia|].
      rewrite emit_word_fmap. f_equal.
      destruct ((c =? 32) || (c =? 9)); [apply IH; lia|].
      destruct (c =? 40). { rewrite IH by lia. by destruct (lex [] s). }
      destruct (c =? 41). { rewrite IH by lia. by destruct (lex [] s). }
      destruct (c =? 60).
      { destruct s as [|c' s]; [done|]. simpl.
        destruct (c' =? 61); [|done].
        simpl in Hn. rewrite IH by lia. by destruct (lex [] s). }
      destruct (c =? 61); [|done].
      destruct s as [|c' s]; [done|]. simpl.
      destruct (c' =? 61); [|done].
      simpl in Hn. rewrite IH by lia. by destruct (lex [] s).
Qed.

Lemma tokenize_negation (s : str) (ts : list token) :
  tokenize s = Some ts →
  tokenize (u "not (" ++ s ++ u ")") = Some (TNot :: TLpar :: ts ++ [TRpar]).
Proof.
  unfold tokenize. intros H.
  change (lex [] (u "not (" ++ s ++ u ")"))
    with (emit_word [110; 111; 116] (cons TLpar <$> lex [] (s ++ [c_rpar]))).
  by rewrite (lex_closing (length s)), H.
Qed.

Lemma py_eval_negation (s : str) (b : bool) :
  py_eval s = Returns b → py_eval (u "not (" ++ s ++ u ")") = Returns (negb b).
Proof.
  unfold py_eval.
  destruct (existsb opaque_char s) eqn:E1; [done|].
  destruct (existsb illegal_char s) eqn:E2; [done|].
  destruct (tokenize s) as [ts|] eqn:E3; [|done].
  destruct (py_parse ts) as [e r| | |] eqn:E4; try done. intros [= <-].
  rewrite !existsb_app, E1, E2. simpl existsb. cbn [orb].
  rewrite (tokenize_negation s ts E3), (py_parse_negation ts e r E4). done.
Qed.

(** ** Substitution in a text in parentheses *)

Lemma head_word_snoc (cs : list cell) (c : N) :
  is_word c = false → head_word (cs ++ [Orig c]) = head_word cs.
Proof. intros H. by destruct cs. Qed.

Lemma mark_snoc (v : N) (b pw : bool) (cs : list cell) (c : N) :
  is_word v = true → is_word c = false →
  mark v b pw (cs ++ [Orig c]) = mark v b pw cs ++ [Orig c].
Proof.
  intros Hv Hc. revert pw. induction cs as [|x cs IH]; intros pw.
  - simpl. destruct (N.eqb_spec v c) as [->|]; [congruence|done].
  - simpl. by rewrite IH, head_word_snoc.
Qed.

Lemma mark_wrap (v : N) (b : bool) (cs : list cell) :
  is_variable v = true → mark v b false (wrap cs) = wrap (mark v b false cs).
Proof.
  intros Hv. pose proof (is_variable_word v Hv) as Hw. unfold wrap.
  change (mark v b false (Orig c_not :: Orig c_lpar :: cs ++ [Orig c_rpar]))
    with ((if (v =? c_not) && true && negb false then Subst b else Orig c_not)
          :: (if (v =? c_lpar) && true && negb (head_word (cs ++ [Orig c_rpar]))
              then Subst b else Orig c_lpar)
          :: mark v b false (cs ++ [Orig c_rpar])).
  rewrite mark_snoc by done.
  by destruct (is_variable_cases v Hv) as [->|[->|[->| ->]]].
Qed.

Lemma mark_all_wrap (tv : dict) (cs : list cell) :
  Forall (fun k => variable_name k = true) tv.*1 →
  foldl mark_entry (wrap cs) tv = wrap (foldl mark_entry cs tv).
Proof.
  revert cs. induction tv as [|[k val] tv IH]; intros cs Hk; [done|].
  rewrite fmap_cons in Hk. apply Forall_cons in Hk as [Hv Hk].
  apply variable_name_inv in Hv as (v & Hkv & Hv). simpl in Hkv. subst k.
  cbn [foldl].
  change (mark_entry (wrap cs) ([v], val)) with (mark v (str_eqb val s_T) false (wrap cs)).
  rewrite mark_wrap by done. by rewrite IH.
Qed.

Lemma substitute_negation (formula : str) (tv : dict) :
  assignment tv →
  substitute (negation formula) tv
  = [c_not; c_lpar] ++ substitute formula tv ++ [c_rpar].
Proof.
  intros [_ Hk].
  assert (Hw : Orig <$> negation formula = wrap (Orig <$> formula)).
  { unfold negation, wrap. by rewrite !fmap_app. }
  rewrite <- (cells_text_Orig (negation formula)) at 1.
  rewrite substitute_cells, Hw, mark_all_wrap by done.
  unfold wrap. rewrite !cells_text_cons, cells_text_app.
  rewrite <- substitute_cells, cells_text_Orig by done. reflexivity.
Qed.

(** ¬ before a text in parentheses negates its result. *)
Lemma evaluate_formula_negation (formula : str) (tv : dict) (res : str) :
  assignment tv →
  evaluate_formula formula tv = Returns res →
  evaluate_formula (negation formula) tv = Returns (flip res).
Proof.
  intros Ha. unfold evaluate_formula.
  rewrite substitute_negation by done. rewrite !connectives_app.
  destruct (py_eval (connectives (substitute formula tv))) as [b| |] eqn:E; try done.
  intros [= <-].
  change (connectives [c_not; c_lpar]) with (u "not (").
  change (connectives [c_rpar]) with (u ")").
  rewrite (py_eval_negation _ b E). by destruct b.
Qed.

Lemma evaluate_rows_negation (formula : str) (combinations : list dict) (results : list str) :
  Forall assignment combinations →
  evaluate_rows formula combinations = Returns results →
  evaluate_rows (negation formula) combinations = Returns (flip <$> results).
Proof.
  revert results. induction combinations as [|combo rest IH]; intros results Ha; simpl.
  - by intros [= <-].
  - apply Forall_cons in Ha as [Ha Hrest].
    destruct (evaluate_formula formula combo) as [res| |] eqn:E; try done.
    destruct (evaluate_rows formula rest) as [rs| |] eqn:Er; try done.
    intros [= <-]. rewrite (evaluate_formula_negation _ _ _ Ha E).
    by rewrite (IH rs Hrest eq_refl).
Qed.

Lemma evaluate_formula_letter (formula : str) (tv : dict) (res : str) :
  evaluate_formula formula tv = Returns res → res = s_T ∨ res = s_F.
Proof.
  unfold evaluate_formula. destruct (py_eval _) as [[]| |]; try done; intros [= <-]; auto.
Qed.

Lemma evaluate_rows_letters (formula : str) (combinations : list dict) (results : list str) :
  evaluate_rows formula combinations = Returns results →
  Forall (fun res => res = s_T ∨ res = s_F) results.
Proof.
  revert results. induction combinations as [|combo rest IH]; intros results; simpl.
  - intros [= <-]. constructor.
  - destruct (evaluate_formula formula combo) as [res| |] eqn:E; try done.
    destruct (evaluate_rows formula rest) as [rs| |] eqn:Er; try done.
    intros [= <-]. constructor; [by apply evaluate_formula_letter in E|by apply IH].
Qed.

Lemma forallb_flip (results : list str) :
  Forall (fun res => res = s_T ∨ res = s_F) results →
  forallb (fun res => str_eqb res s_F) (flip <$> results)
  = forallb (fun res => str_eqb res s_T) results ∧
  forallb (fun res => str_eqb res s_T) (flip <$> results)
  = forallb (fun res => str_eqb res s_F) results.
Proof.
  induction 1 as [|res rs Hres _ [IH1 IH2]]; [done|].
  rewrite fmap_cons. cbn [forallb]. rewrite IH1, IH2.
  by destruct Hres as [-> | ->].
Qed.

Lemma extract_variables_same (f g : str) :
  (∀ c, is_variable c = true → c ∈ f ↔ c ∈ g) →
  extract_variables f = extract_variables g.
Proof.
  intros H. apply (Sorted_unique str_le); try apply Sorted_sorted.
  apply NoDup_Permutation; try apply NoDup_sorted.
  intros v. rewrite !elem_of_extract_variables.
  split; intros (c & -> & Hc & Hin); exists c; split_and!; auto; by apply (H c Hc).
Qed.

Lemma extract_variables_negation (formula : str) :
  extract_variables (negation formula) = extract_variables formula.
Proof.
  apply extract_variables_same. intros c Hc. unfold negation.
  rewrite !elem_of_app, !elem_of_cons, !elem_of_nil.
  split; [|tauto].
  intros [[->|[->|[]]]|[?|[->|[]]]]; done.
Qed.

Lemma results_not_both (results : list str) :
  results ≠ [] →
  forallb (fun res => str_eqb res s_T) results = true →
  forallb (fun res => str_eqb res s_F) results = true → False.
Proof.
  destruct results as [|res rs]; [done|]. simpl. intros _.
  rewrite !andb_true_iff, !str_eqb_eq. intros [-> _] [? _]. done.
Qed.




(** ** The equivalence view *)

Lemma compare_rows_differences (formula1 formula2 : str)
    (combinations : list dict) (results1 results2 : list str) (idx : nat) :
  (compare_rows formula1 formula2 idx (zip combinations (zip results1 results2))).2
  = divergent_rows idx combinations results1 results2.
Proof.
  unfold divergent_rows.
  generalize (zip combinations (zip results1 results2)). clear.
  intros rows. revert idx. induction rows as [|[combo [res1 res2]] rows IH]; intros idx.
  - done.
  - cbn [compare_rows]. specialize (IH (S idx)).
    destruct (compare_rows formula1 formula2 (S idx) rows) as [table_data differences].
    cbn [snd] in *. rewrite imap_cons, filter_cons. cbn [fst snd].
    rewrite (imap_ext _ (fun i row => (S idx + i, row.1, row.2.1, row.2.2)%nat)).
    2:{ intros i row _. simpl. repeat f_equal. lia. }
    rewrite <- IH, Nat.add_0_r.
    destruct (str_eqb res1 res2) eqn:E.
    + apply str_eqb_eq in E as ->. by rewrite decide_False by auto.
    + rewrite decide_True; [done|]. intros ->. by rewrite str_eqb_refl in E.
Qed.

Lemma divergent_rows_nil (first : nat) (combinations : list dict) (results1 results2 : list str) :
  length results1 = length combinations → length results2 = length combinations →
  divergent_rows first combinations results1 results2 = [] ↔ results1 = results2.
Proof.
  unfold divergent_rows.
  revert first results1 results2.
  induction combinations as [|combo cs IH]; intros first [|r1 rs1] [|r2 rs2]; simpl; try done.
  intros [= H1] [= H2].
  rewrite filter_cons. cbn [fst snd].
  rewrite (imap_ext _ (fun i row => (S first + i, row.1, row.2.1, row.2.2)%nat)).
  2:{ intros i row _. simpl. repeat f_equal. lia. }
  destruct (decide (r1 ≠ r2)) as [Hne|Heq].
  - split; [done|]. intros [= ? _]. done.
  - apply dec_stable in Heq as ->. rewrite (IH (S first) rs1 rs2 H1 H2).
    split; [by intros ->|by intros [= ->]].
Qed.

Lemma elem_of_divergent_rows (combinations : list dict) (results1 results2 : list str)
    (idx : nat) (combo : dict) (res1 res2 : str) :
  (idx, combo, res1, res2) ∈ divergent_rows 0 combinations results1 results2
  ↔ combinations !! idx = Some combo ∧ results1 !! idx = Some res1
    ∧ results2 !! idx = Some res2 ∧ res1 ≠ res2.
Proof.
  unfold divergent_rows. rewrite list_elem_of_filter. cbn [fst snd].
  rewrite elem_of_lookup_imap. split.
  - intros [Hne (i & [c [a b]] & [= -> -> -> ->] & Hl)].
    apply lookup_zip_with_Some in Hl as (c' & [a' b'] & [= <- <- <-] & Hc & Hl).
    apply lookup_zip_with_Some in Hl as (a'' & b'' & [= <- <-] & Ha & Hb).
    done.
  - intros (Hc & H1 & H2 & Hne). split; [done|].
    exists idx, (combo, (res1, res2)). split; [done|].
    apply lookup_zip_with_Some. exists combo, (res1, res2). split_and!; [done|done|].
    apply lookup_zip_with_Some. eauto.
Qed.

Lemma warning_report_line (idx : nat) (combo : dict) (res1 res2 : str) :
  warning (idx, combo, res1, res2) = report_line (S idx) combo res1 res2.
Proof. unfold warning, report_line. by rewrite Nat.add_1_r. Qed.

Lemma all_vars_union (formula1 formula2 : str) :
  sorted (list_to_set (extract_variables formula1)
          ∪ list_to_set (extract_variables formula2))
  = (λ c, [c]) <$> filter (λ c, c ∈ formula1 ∨ c ∈ formula2) canonical.
Proof.
  destruct (canonical_filter_sorted (λ c, c ∈ formula1 ∨ c ∈ formula2)) as [Hs Hn].
  apply (Sorted_unique str_le); auto.
  - apply Sorted_sorted.
  - apply NoDup_Permutation; auto.
    + apply NoDup_sorted.
    + intros v. rewrite elem_of_sorted, elem_of_union, !elem_of_list_to_set.
      rewrite !elem_of_extract_variables.
      rewrite list_elem_of_fmap. setoid_rewrite list_elem_of_filter.
      setoid_rewrite is_variable_canonical. naive_solver.
Qed.

Lemma formula_equivalence_Shown (formula1 formula2 : str) (rep : equivalence_report) :
  formula_equivalence formula1 formula2 = Shown rep →
  er_all_vars rep
    = sorted (list_to_set (extract_variables formula1)
              ∪ list_to_set (extract_variables formula2)) ∧
  er_combinations rep = generate_truth_combinations (er_all_vars rep) ∧
  evaluate_rows formula1 (er_combinations rep) = Returns (er_results1 rep) ∧
  evaluate_rows formula2 (er_combinations rep) = Returns (er_results2 rep) ∧
  er_differences rep
    = (compare_rows formula1 formula2 0
         (zip (er_combinations rep) (zip (er_results1 rep) (er_results2 rep)))).2 ∧
  er_is_equivalent rep = (length (er_differences rep) =? 0)%nat ∧
  er_warnings rep = warning <$> er_differences rep.
Proof.
  unfold formula_equivalence.
  destruct formula1 as [|c1 f1]; [done|]. destruct formula2 as [|c2 f2]; [done|].
  destruct (evaluate_rows (c1 :: f1) _) as [results1| |] eqn:E1; try done.
  destruct (evaluate_rows (c2 :: f2) _) as [results2| |] eqn:E2; try done.
  destruct (compare_rows _ _ _ _) as [table_data differences] eqn:Ec.
  intros [= <-]. cbn. by rewrite Ec.
Qed.



(** * Further properties *)

(** ** The access view *)

Lemma person_types_differ :
  str_eqb student teacher = false ∧ str_eqb student visitor = false
  ∧ str_eqb visitor teacher = false ∧ str_eqb visitor student = false.
Proof. by vm_compute. Qed.

(** X1. The decision of the access view in closed form: a teacher is let
    in; a student is let in on a day that is not a workday, or in working
    hours with the card; a visitor is let in with an escort; anyone else is
    turned away.  The conclusion shown agrees with the decision. *)
Theorem door_decision (W T person_type student_id teacher_escort : str) :
  let a := logic_door_access W T person_type student_id teacher_escort in
  allow a
  = (str_eqb person_type teacher
     || (str_eqb person_type student
         && (negb (str_eqb W yes) || (str_eqb T yes && str_eqb student_id yes)))
     || (str_eqb person_type visitor && str_eqb teacher_escort yes))
  ∧ conclusion a = (if allow a then may_enter else may_not_enter).
Proof.
  destruct person_types_differ as (_ & Hsv & _ & _).
  unfold logic_door_access. cbv zeta.
  destruct (str_eqb person_type teacher) eqn:E; [split; reflexivity|].
  destruct (str_eqb person_type student) eqn:S.
  - apply str_eqb_eq in S. subst person_type. rewrite Hsv.
    destruct (str_eqb W yes), (str_eqb T yes), (str_eqb student_id yes);
      split; reflexivity.
  - destruct (str_eqb person_type visitor) eqn:V; [|split; reflexivity].
    destruct (str_eqb teacher_escort yes); split; reflexivity.
Qed.

(** X2. The explanation agrees with the decision: for each of the three
    person types exactly two steps are shown, the first recalling the day
    and the hours given, and the second ending in 允许进入 when access is
    allowed and in 禁止进入 when it is not; for any other person type no
    step is shown and access is refused. *)
Theorem door_reasoning (W T person_type student_id teacher_escort : str) :
  let a := logic_door_access W T person_type student_id teacher_escort in
  (person_type ∈ [teacher; student; visitor] →
   ∃ first second, reasoning a = [first; second] ∧
     known W T `prefix_of` first ∧
     (if allow a then allowed else refused) `suffix_of` second) ∧
  (person_type ∉ [teacher; student; visitor] →
   reasoning a = [] ∧ allow a = false).
Proof.
  destruct person_types_differ as (Hst & Hsv & Hvt & Hvs).
  assert (Hpre : ∀ x y : str, x `prefix_of` x ++ y) by (intros x y; by exists y).
  assert (Hsuf : ∀ x y : str, y `suffix_of` x ++ y) by (intros x y; by exists x).
  unfold logic_door_access. cbv zeta. split.
  - intros Hp.
    repeat (apply elem_of_cons in Hp as [->|Hp]); [| | |by apply elem_of_nil in Hp].
    + rewrite str_eqb_refl. eexists _, _. split; [reflexivity|].
      split; [apply Hpre|apply Hsuf].
    + rewrite Hst, str_eqb_refl.
      destruct (str_eqb W yes), (str_eqb T yes), (str_eqb student_id yes);
        (eexists _, _; split; [reflexivity|]; split; [apply Hpre|apply Hsuf]).
    + rewrite Hvt, Hvs, str_eqb_refl.
      destruct (str_eqb teacher_escort yes);
        (eexists _, _; split; [reflexivity|]; split; [apply Hpre|apply Hsuf]).
  - intros Hp. rewrite !not_elem_of_cons in Hp. destruct Hp as (H1 & H2 & H3 & _).
    rewrite (str_eqb_neq _ _ H1), (str_eqb_neq _ _ H2), (str_eqb_neq _ _ H3).
    split; reflexivity.
Qed.

Lemma door_reasoning_witness :
  student ∈ [teacher; student; visitor] ∧
  ∃ first second,
    reasoning (logic_door_access yes yes student no no) = [first; second] ∧
    refused `suffix_of` second.
Proof.
  assert (H : student ∈ [teacher; student; visitor]) by (right; left).
  split; [exact H|].
  destruct (proj1 (door_reasoning yes yes student no no) H)
    as (first & second & Hr & _ & Hs).
  exists first, second. split; [exact Hr|exact Hs].
Defined.

(** ** Chained comparisons *)

(** X3. A chain of → and ↔ without parentheses is neither grouped to the
    left nor to the right: Python reads it as a comparison chain, the
    conjunction of its links.  For all variables x, y, z and every
    assignment that gives them values, x→y→z is (x→y)∧(y→z), x↔y↔z is
    (x↔y)∧(y↔z) and x→y↔z is (x→y)∧(y↔z). *)
Theorem chained_connectives (tv : dict) (x y z : variable) :
  assignment tv →
  is_Some (dict_get tv [char_of x]) →
  is_Some (dict_get tv [char_of y]) →
  is_Some (dict_get tv [char_of z]) →
  let X := valuation tv (char_of x) in
  let Y := valuation tv (char_of y) in
  let Z := valuation tv (char_of z) in
  evaluate_formula [char_of x; c_imp; char_of y; c_imp; char_of z] tv
    = Returns (letter ((negb X || Y) && (negb Y || Z))) ∧
  evaluate_formula [char_of x; c_iff; char_of y; c_iff; char_of z] tv
    = Returns (letter (eqb X Y && eqb Y Z)) ∧
  evaluate_formula [char_of x; c_imp; char_of y; c_iff; char_of z] tv
    = Returns (letter ((negb X || Y) && eqb Y Z)).
Proof.
  intros Ha Hx Hy Hz X Y Z. split_and!.
  - read_text Ha x y z X Y Z.
  - read_text Ha x y z X Y Z.
  - read_text Ha x y z X Y Z.
Qed.

Lemma chained_connectives_witness :
  let tv := [(u "p", s_F); (u "q", s_T); (u "r", s_F)] in
  assignment tv ∧ evaluate_formula (u "p→q→r") tv = Returns s_F.
Proof.
  intros tv.
  assert (Ha : assignment tv) by (split; [distinct|by repeat constructor]).
  split; [exact Ha|].
  assert (Hp : is_Some (dict_get tv [char_of Vp])) by (by eexists).
  assert (Hq : is_Some (dict_get tv [char_of Vq])) by (by eexists).
  assert (Hr : is_Some (dict_get tv [char_of Vr])) by (by eexists).
  exact (proj1 (chained_connectives tv Vp Vq Vr Ha Hp Hq Hr)).
Defined.

(** ** Sizes *)

Lemma extract_variables_filter (formula : str) :
  extract_variables formula = (λ c, [c]) <$> filter (λ c, c ∈ formula) canonical.
Proof.
  destruct (canonical_filter_sorted (λ c, c ∈ formula)) as [Hs Hn].
  apply (Sorted_unique str_le); auto.
  - apply Sorted_sorted.
  - apply NoDup_Permutation; auto.
    + apply NoDup_sorted.
    + intros v. rewrite elem_of_extract_variables.
      rewrite list_elem_of_fmap. setoid_rewrite list_elem_of_filter.
      setoid_rewrite is_variable_canonical. naive_solver.
Qed.

Lemma length_extract_variables (formula : str) :
  (length (extract_variables formula) ≤ 4)%nat.
Proof.
  rewrite extract_variables_filter, length_fmap.
  apply (length_filter (λ c, c ∈ formula) canonical).
Qed.

Lemma pow2_bounds (n : nat) : (n ≤ 4 → 1 ≤ 2 ^ n ≤ 16)%nat.
Proof.
  intros H. split.
  - pose proof (Nat.pow_nonzero 2 n). lia.
  - change 16%nat with (2 ^ 4)%nat. apply Nat.pow_le_mono_r; lia.
Qed.

Lemma length_compare_rows (formula1 formula2 : str) (idx : nat)
    (rows : list (dict * (str * str))) :
  length (compare_rows formula1 formula2 idx rows).1 = length rows.
Proof.
  revert idx. induction rows as [|[combo [res1 res2]] rows IH]; intros idx; [done|].
  cbn [compare_rows]. specialize (IH (S idx)).
  destruct (compare_rows formula1 formula2 (S idx) rows) as [table_data differences].
  simpl in *. by rewrite IH.
Qed.

Lemma formula_equivalence_table (formula1 formula2 : str) (rep : equivalence_report) :
  formula_equivalence formula1 formula2 = Shown rep →
  formula1 ≠ [] ∧ formula2 ≠ [] ∧
  er_table_data rep
  = (compare_rows formula1 formula2 0
       (zip (er_combinations rep) (zip (er_results1 rep) (er_results2 rep)))).1.
Proof.
  unfold formula_equivalence.
  destruct formula1 as [|c1 f1]; [done|]. destruct formula2 as [|c2 f2]; [done|].
  destruct (evaluate_rows (c1 :: f1) _) as [results1| |] eqn:E1; try done.
  destruct (evaluate_rows (c2 :: f2) _) as [results2| |] eqn:E2; try done.
  destruct (compare_rows _ _ _ _) as [table_data differences] eqn:Ec.
  intros [= <-]. cbn. by rewrite Ec.
Qed.

Lemma all_vars_concat (formula1 formula2 : str) :
  sorted (list_to_set (extract_variables formula1)
          ∪ list_to_set (extract_variables formula2))
  = extract_variables (formula1 ++ formula2).
Proof.
  rewrite all_vars_union, extract_variables_filter. f_equal.
  apply list_filter_iff. intros c. by rewrite elem_of_app.
Qed.

(** X4. A text has at most four variables, so whatever is tabulated is
    small: a truth table has between 2 and 16 rows, and the comparison table
    of two texts between 1 and 16 rows, one for each assignment. *)
Theorem table_bounds (formula : str) :
  (length (extract_variables formula) ≤ 4)%nat ∧
  (∀ tt, truth_table_generator formula = Shown tt →
     length (tt_table_data tt) = length (tt_combinations tt) ∧
     (2 ≤ length (tt_table_data tt) ≤ 16)%nat) ∧
  (∀ formula2 rep, formula_equivalence formula formula2 = Shown rep →
     length (er_table_data rep) = length (er_combinations rep) ∧
     (1 ≤ length (er_table_data rep) ≤ 16)%nat).
Proof.
  split_and!.
  - apply length_extract_variables.
  - intros tt H. pose proof (length_tt_results _ _ H) as Hlen.
    apply truth_table_generator_Shown in H as (_ & Hv & _ & Hc & Hr & Hd & _).
    apply length_evaluate_rows in Hr.
    rewrite Hd, length_zip_with_r_eq by done. rewrite <- Hr, Hlen. split; [done|].
    pose proof (length_extract_variables formula) as H4.
    destruct (extract_variables formula) as [|v vs]; [done|]. simpl length in *.
    destruct (pow2_bounds (length vs)) as [? ?]; [lia|].
    rewrite Nat.pow_succ_r'. split; [lia|].
    change 16%nat with (2 * 2 ^ 3)%nat.
    apply Nat.mul_le_mono_l, Nat.pow_le_mono_r; lia.
  - intros formula2 rep H.
    destruct (formula_equivalence_table _ _ _ H) as (_ & _ & Ht).
    apply formula_equivalence_Shown in H as (Hv & Hc & H1 & H2 & _).
    apply length_evaluate_rows in H1, H2.
    rewrite Ht, length_compare_rows.
    rewrite length_zip_with_l_eq by (rewrite length_zip_with_l_eq; congruence).
    split; [done|]. rewrite Hc, length_generate_truth_combinations.
    apply pow2_bounds. rewrite Hv, all_vars_concat. apply length_extract_variables.
Qed.

Lemma table_bounds_witness :
  ∃ tt, truth_table_generator (u "p∧q∨r→s") = Shown tt ∧
        (2 ≤ length (tt_table_data tt) ≤ 16)%nat.
Proof.
  assert (H : ∃ tt, truth_table_generator (u "p∧q∨r→s") = Shown tt)
    by (eexists; vm_compute; reflexivity).
  destruct H as [tt H]. exists tt. split; [exact H|].
  exact (proj2 (proj1 (proj2 (table_bounds (u "p∧q∨r→s"))) tt H)).
Defined.

(** ** The equivalence view as a relation *)

(** X5. The equivalence view enumerates the assignments of the variables
    of the two texts taken together: its variable list is the variable list
    of the concatenated text. *)
Theorem equivalence_variables (formula1 formula2 : str) (rep : equivalence_report) :
  formula_equivalence formula1 formula2 = Shown rep →
  er_all_vars rep = extract_variables (formula1 ++ formula2) ∧
  er_combinations rep
  = generate_truth_combinations (extract_variables (formula1 ++ formula2)).
Proof.
  intros H. apply formula_equivalence_Shown in H as (Hv & Hc & _).
  rewrite Hc, Hv, all_vars_concat. done.
Qed.

Lemma equivalence_variables_witness :
  ∃ rep, formula_equivalence (u "p→q") (u "¬p∨r") = Shown rep ∧
         er_all_vars rep = extract_variables (u "p→q" ++ u "¬p∨r").
Proof.
  assert (H : ∃ rep, formula_equivalence (u "p→q") (u "¬p∨r") = Shown rep)
    by (eexists; vm_compute; reflexivity).
  destruct H as [rep H]. exists rep. split; [exact H|].
  exact (proj1 (equivalence_variables _ _ _ H)).
Defined.

Lemma divergent_rows_exchange (first : nat) (combinations : list dict)
    (results1 results2 : list str) :
  divergent_rows first combinations results2 results1
  = exchange <$> divergent_rows first combinations results1 results2.
Proof.
  unfold divergent_rows. revert first results1 results2.
  induction combinations as [|combo cs IH]; intros first [|r1 rs1] [|r2 rs2];
    try done.
  cbn [zip zip_with]. rewrite !imap_cons, !filter_cons. cbn [fst snd].
  rewrite (imap_ext _ (fun i row => (S first + i, row.1, row.2.1, row.2.2)%nat)
             (zip_with pair cs (zip_with pair rs2 rs1))).
  2:{ intros i row _. simpl. repeat f_equal. lia. }
  rewrite (imap_ext _ (fun i row => (S first + i, row.1, row.2.1, row.2.2)%nat)
             (zip_with pair cs (zip_with pair rs1 rs2))).
  2:{ intros i row _. simpl. repeat f_equal. lia. }
  specialize (IH (S first) rs1 rs2). cbn [zip] in IH.
  destruct (decide (r2 ≠ r1)) as [H21|H21], (decide (r1 ≠ r2)) as [H12|H12].
  - rewrite fmap_cons. by rewrite IH.
  - apply dec_stable in H12. congruence.
  - apply dec_stable in H21. congruence.
  - done.
Qed.

(** X6. A text is equivalent to itself: whenever the view compares a text
    with itself it reports "equivalent" with no difference and no warning;
    and it does so for every text that can be tabulated. *)
Theorem equivalence_reflexive (formula : str) :
  (∀ rep, formula_equivalence formula formula = Shown rep →
     er_is_equivalent rep = true ∧ er_differences rep = [] ∧ er_warnings rep = []) ∧
  (∀ tt, truth_table_generator formula = Shown tt →
     ∃ rep, formula_equivalence formula formula = Shown rep ∧
            er_combinations rep = tt_combinations tt ∧
            er_results1 rep = tt_results tt ∧ er_results2 rep = tt_results tt).
Proof.
  split.
  - intros rep H. apply formula_equivalence_Shown in H as (_ & _ & H1 & H2 & Hd & He & Hw).
    assert (Heq : er_results1 rep = er_results2 rep) by congruence.
    rewrite compare_rows_differences in Hd.
    assert (Hnil : er_differences rep = []).
    { rewrite Hd. apply (divergent_rows_nil 0 (er_combinations rep)); [| |done];
        by apply (length_evaluate_rows formula). }
    by rewrite He, Hw, Hnil.
  - intros tt H. apply truth_table_generator_Shown in H as (Hne & _ & _ & Hc & Hr & _).
    unfold formula_equivalence. destruct formula as [|c f]; [done|].
    rewrite all_vars_concat.
    rewrite (extract_variables_same ((c :: f) ++ c :: f) (c :: f)).
    2:{ intros x _. rewrite elem_of_app. tauto. }
    rewrite <- Hc, Hr.
    destruct (compare_rows _ _ _ _) as [table_data differences].
    eexists. split; [reflexivity|]. done.
Qed.

Lemma equivalence_reflexive_witness :
  ∃ rep, formula_equivalence (u "p→q∧r") (u "p→q∧r") = Shown rep ∧
         er_is_equivalent rep = true.
Proof.
  assert (H : ∃ rep, formula_equivalence (u "p→q∧r") (u "p→q∧r") = Shown rep)
    by (eexists; vm_compute; reflexivity).
  destruct H as [rep H]. exists rep. split; [exact H|].
  exact (proj1 (proj1 (equivalence_reflexive (u "p→q∧r")) rep H)).
Defined.

(** X7. Comparing two texts in the other order gives the mirrored report:
    the same variables and assignments, the two result columns exchanged,
    the same verdict, and the same differences with their two results
    exchanged. *)
Theorem equivalence_symmetric (formula1 formula2 : str) (rep : equivalence_report) :
  formula_equivalence formula1 formula2 = Shown rep →
  ∃ rep', formula_equivalence formula2 formula1 = Shown rep' ∧
    er_all_vars rep' = er_all_vars rep ∧
    er_combinations rep' = er_combinations rep ∧
    er_results1 rep' = er_results2 rep ∧
    er_results2 rep' = er_results1 rep ∧
    er_is_equivalent rep' = er_is_equivalent rep ∧
    er_differences rep' = exchange <$> er_differences rep.
Proof.
  intros H. destruct (formula_equivalence_table _ _ _ H) as (Hn1 & Hn2 & _).
  apply formula_equivalence_Shown in H as (Hv & Hc & H1 & H2 & Hd & He & _).
  rewrite compare_rows_differences in Hd.
  unfold formula_equivalence.
  destruct formula1 as [|c1 f1]; [done|]. destruct formula2 as [|c2 f2]; [done|].
  rewrite (union_comm_L (list_to_set (extract_variables (c2 :: f2)))).
  rewrite <- Hv, <- Hc, H2, H1.
  pose proof (compare_rows_differences (c2 :: f2) (c1 :: f1) (er_combinations rep)
                (er_results2 rep) (er_results1 rep) 0) as Hd'.
  destruct (compare_rows _ _ _ _) as [table_data differences].
  cbn [snd] in Hd'. eexists. split; [reflexivity|]. cbn.
  rewrite Hd', divergent_rows_exchange, <- Hd.
  split_and!; try done. by rewrite He, length_fmap.
Qed.

Lemma equivalence_symmetric_witness :
  ∃ rep rep', formula_equivalence (u "p↔q") (u "p∧q") = Shown rep ∧
    formula_equivalence (u "p∧q") (u "p↔q") = Shown rep' ∧
    er_is_equivalent rep' = er_is_equivalent rep.
Proof.
  assert (H : ∃ rep, formula_equivalence (u "p↔q") (u "p∧q") = Shown rep)
    by (eexists; vm_compute; reflexivity).
  destruct H as [rep H].
  destruct (equivalence_symmetric _ _ _ H) as (rep' & H' & _ & _ & _ & _ & He & _).
  exists rep, rep'. split_and!; [exact H|exact H'|exact He].
Defined.

(** ** Negation twice *)

Lemma table_negation (formula : str) (tt : truth_table) :
  truth_table_generator formula = Shown tt →
  ∃ tt', truth_table_generator (negation formula) = Shown tt' ∧
    tt_combinations tt' = tt_combinations tt ∧
    tt_results tt' = flip <$> tt_results tt.
Proof.
  intros H.
  apply truth_table_generator_Shown in H as (Hne & Hv & _ & Hc & Hr & _ & Ht).
  pose proof (combinations_assignments _ (NoDup_extract_variables formula)
                (extract_variables_names formula)) as Hall.
  rewrite <- Hc in Hall.
  pose proof (evaluate_rows_negation _ _ _ Hall Hr) as Hneg.
  unfold truth_table_generator. cbn [negation app].
  change (c_not :: c_lpar :: formula ++ [c_rpar]) with (negation formula).
  rewrite extract_variables_negation.
  destruct (extract_variables formula) as [|v vs] eqn:Ev; [done|].
  rewrite <- Hc, Hneg. eexists. split; [reflexivity|]. done.
Qed.

Lemma flip_flip (results : list str) :
  Forall (fun res => res = s_T ∨ res = s_F) results →
  flip <$> (flip <$> results) = results.
Proof.
  induction 1 as [|res rs Hres _ IH]; [done|].
  rewrite !fmap_cons, IH. by destruct Hres as [-> | ->].
Qed.



(** ** The enumeration is complete and without repetition *)

Lemma row_number_snoc (bits : list bool) (b : bool) :
  row_number (bits ++ [b]) = (2 * row_number bits + (if b then 1 else 0))%nat.
Proof. unfold row_number. by rewrite foldl_snoc. Qed.

Lemma row_number_lt (bits : list bool) : (row_number bits < 2 ^ length bits)%nat.
Proof.
  induction bits as [|b bits IH] using rev_ind; [change (0 < 1)%nat; lia|].
  rewrite row_number_snoc, length_app, Nat.add_1_r, Nat.pow_succ_r'.
  destruct b; lia.
Qed.

Lemma row_number_bit (bits : list bool) (j : nat) (b : bool) :
  bits !! j = Some b →
  Z.testbit (Z.of_nat (row_number bits)) (Z.of_nat (length bits - 1 - j)) = b.
Proof.
  revert j. induction bits as [|b0 bits IH] using rev_ind; intros j Hj; [done|].
  rewrite row_number_snoc, length_app, Nat.add_1_r.
  assert (Hz : Z.of_nat (2 * row_number bits + (if b0 then 1 else 0))
               = (2 * Z.of_nat (row_number bits) + Z.b2z b0)%Z)
    by (destruct b0; simpl Z.b2z; lia).
  rewrite Hz.
  destruct (decide (j < length bits)%nat) as [Hlt|Hge].
  - rewrite lookup_app_l in Hj by done.
    replace (Z.of_nat (S (length bits) - 1 - j))
      with (Z.succ (Z.of_nat (length bits - 1 - j))) by lia.
    rewrite Z.testbit_succ_r by lia. by apply IH.
  - pose proof (lookup_lt_Some _ _ _ Hj) as Hlen.
    rewrite length_app in Hlen. simpl in Hlen.
    assert (j = length bits) as -> by lia.
    rewrite lookup_app_r, Nat.sub_diag in Hj by lia. injection Hj as <-.
    replace (Z.of_nat (S (length bits) - 1 - length bits)) with 0%Z by lia.
    apply Z.testbit_0_r.
Qed.

Lemma letter_inj (b b' : bool) : letter b = letter b' → b = b'.
Proof. by destruct b, b'. Qed.

Lemma letter_true (b : bool) : str_eqb (letter b) s_T = b.
Proof. by destruct b. Qed.

Lemma combination_assignment_of (variables : list str) (a : str → bool) :
  NoDup variables →
  combination variables (length variables)
              (Z.of_nat (row_number (a <$> variables)))
  = assignment_of a variables.
Proof.
  intros Hnd. rewrite combination_zip by done. unfold assignment_of.
  apply list_eq. intros j. rewrite lookup_zip_with, list_lookup_fmap.
  destruct (variables !! j) as [v|] eqn:Ev.
  - rewrite lookup_seq_lt by (by apply lookup_lt_Some in Ev). simpl.
    do 2 f_equal. f_equal.
    rewrite <- (length_fmap a variables). apply row_number_bit.
    by rewrite list_lookup_fmap, Ev.
  - by destruct (seq 0 (length variables) !! j).
Qed.

Lemma testbit_small (n : nat) (x : nat) (k : Z) :
  (x < 2 ^ n)%nat → (Z.of_nat n ≤ k)%Z → Z.testbit (Z.of_nat x) k = false.
Proof.
  intros Hx Hk.
  apply (proj1 (Z.bounded_iff_bits_nonneg (Z.of_nat n) (Z.of_nat x)
                  ltac:(lia) ltac:(lia))); [|done].
  apply Nat2Z.inj_lt in Hx. rewrite Nat2Z.inj_pow in Hx. exact Hx.
Qed.

Lemma combination_inj (variables : list str) (i i' : nat) :
  NoDup variables →
  (i < 2 ^ length variables)%nat → (i' < 2 ^ length variables)%nat →
  combination variables (length variables) (Z.of_nat i)
  = combination variables (length variables) (Z.of_nat i') →
  i = i'.
Proof.
  intros Hnd Hi Hi' Heq. rewrite !combination_zip in Heq by done.
  apply Nat2Z.inj, Z.bits_inj'. intros k Hk.
  destruct (decide (k < Z.of_nat (length variables))%Z) as [Hlt|Hge].
  - set (j := (length variables - 1 - Z.to_nat k)%nat).
    assert (Hj : (j < length variables)%nat) by lia.
    destruct (lookup_lt_is_Some_2 variables j Hj) as [v Hv].
    apply (f_equal (fun l => l !! j)) in Heq.
    rewrite !lookup_zip_with, lookup_seq_lt, Hv in Heq by done. simpl in Heq.
    injection Heq as Heq. apply letter_inj in Heq.
    replace (Z.of_nat (length variables - 1 - j)) with k in Heq by lia. done.
  - rewrite !(testbit_small (length variables)) by (done || lia). done.
Qed.

(** X9. For distinct variables the enumeration holds every assignment of
    letters to them, each exactly once: the rows are pairwise different,
    every way of giving each variable true or false is a row, and every row
    is such an assignment.  With no variable there is the one empty row. *)
Theorem every_assignment_once (variables : list str) :
  NoDup variables →
  NoDup (generate_truth_combinations variables) ∧
  (∀ a : str → bool,
     assignment_of a variables ∈ generate_truth_combinations variables) ∧
  (∀ combo, combo ∈ generate_truth_combinations variables →
     ∃ a : str → bool, combo = assignment_of a variables) ∧
  (variables = [] → generate_truth_combinations variables = [[]]).
Proof.
  intros Hnd. split_and!.
  - unfold generate_truth_combinations. apply NoDup_fmap_2_strong; [|apply NoDup_seq].
    intros i i' Hi Hi'. apply elem_of_seq in Hi, Hi'.
    apply combination_inj; [done|lia..].
  - intros a. apply list_elem_of_lookup. exists (row_number (a <$> variables)).
    rewrite lookup_generate_truth_combinations.
    + by rewrite combination_assignment_of.
    + rewrite <- (length_fmap a variables). apply row_number_lt.
  - intros combo Hc. unfold generate_truth_combinations in Hc.
    apply list_elem_of_fmap in Hc as (i & -> & _).
    exists (fun v => match dict_get (combination variables (length variables)
                                       (Z.of_nat i)) v with
                     | Some l => str_eqb l s_T
                     | None => false
                     end).
    unfold assignment_of. apply list_eq. intros j.
    rewrite list_lookup_fmap. rewrite combination_zip at 1 by done.
    rewrite lookup_zip_with.
    destruct (variables !! j) as [v|] eqn:Ev.
    + rewrite lookup_seq_lt by (by apply lookup_lt_Some in Ev). simpl.
      rewrite (combination_get variables _ j v) by done. by rewrite letter_true.
    + by destruct (seq 0 (length variables) !! j).
  - by intros ->.
Qed.

Lemma every_assignment_once_witness :
  NoDup [u "p"; u "q"] ∧
  assignment_of (fun v => str_eqb v (u "q")) [u "p"; u "q"]
    ∈ generate_truth_combinations [u "p"; u "q"].
Proof.
  assert (Hnd : NoDup [u "p"; u "q"]) by distinct.
  split; [exact Hnd|].
  exact (proj1 (proj2 (every_assignment_once [u "p"; u "q"] Hnd))
           (fun v => str_eqb v (u "q"))).
Defined.

(** ** What the result depends on *)

Lemma head_word_substituted (d : N → option bool) (pw : bool) (s : str) :
  (∀ c b, d c = Some b → is_word c = true) →
  head_word (substituted d pw s) = word_at (head s).
Proof.
  intros Hd. destruct s as [|c s]; [done|]. unfold head_word, word_at.
  cbn [substituted head from_option].
  destruct (d c) as [b|] eqn:E; [|done].
  rewrite (Hd c b E).
  destruct (negb pw && negb (word_at (head s))); [done|]. by apply (Hd c b).
Qed.

Lemma mark_substituted (v : N) (b : bool) (d : N → option bool) :
  is_variable v = true → d v = None →
  (∀ c b', d c = Some b' → is_word c = true) →
  ∀ (s : str) (pw : bool),
    mark v b pw (substituted d pw s) = substituted (update d v b) pw s.
Proof.
  intros Hv Hdv Hd. pose proof (is_variable_word v Hv) as Hw.
  induction s as [|c s IH]; intros pw; [done|].
  cbn [substituted]. unfold update at 1.
  destruct (d c) as [b'|] eqn:E.
  - assert (Hne : (c =? v) = false).
    { apply N.eqb_neq. intros ->. congruence. }
    rewrite Hne. pose proof (Hd c b' E) as Hc.
    destruct (negb pw && negb (word_at (head s))) eqn:Hiso; cbn [mark cell_word].
    + by rewrite <- IH, Hc.
    + rewrite (N.eqb_sym v c), Hne. cbn [andb]. by rewrite <- IH.
  - cbn [mark cell_word]. rewrite head_word_substituted by done.
    rewrite <- IH, (N.eqb_sym c v).
    destruct (v =? c) eqn:Hvc; [|done].
    by destruct (negb pw), (negb (word_at (head s))).
Qed.

Lemma substituted_ext (d d' : N → option bool) (s : str) (pw : bool) :
  (∀ c, c ∈ s → d c = d' c) → substituted d pw s = substituted d' pw s.
Proof.
  revert pw. induction s as [|c s IH]; intros pw H; [done|].
  cbn [substituted]. rewrite (H c) by left. f_equal. apply IH.
  intros c' Hc'. apply H. by right.
Qed.

Lemma substituted_nothing (s : str) (pw : bool) :
  substituted (fun _ => None) pw s = Orig <$> s.
Proof. revert pw. induction s as [|c s IH]; intros pw; [done|]. simpl. by rewrite IH. Qed.

Lemma mark_all_substituted (s : str) (tv : dict) :
  assignment tv → foldl mark_entry (Orig <$> s) tv = substituted (truth tv) false s.
Proof.
  intros [Hnd Hk].
  assert (G : ∀ (tv : dict) (d : N → option bool),
    NoDup tv.*1 → Forall (fun k => variable_name k = true) tv.*1 →
    (∀ c b, d c = Some b → is_variable c = true) →
    (∀ c, [c] ∈ tv.*1 → d c = None) →
    foldl mark_entry (substituted d false s) tv
    = substituted (fun c => match d c with Some b => Some b | None => truth tv c end)
                  false s).
  { clear tv Hnd Hk. induction tv as [|[k val] tv IH]; intros d Hnd Hk Hd Hfresh.
    - simpl. apply substituted_ext. intros c _. by destruct (d c).
    - rewrite fmap_cons in Hnd, Hk, Hfresh.
      apply NoDup_cons in Hnd as [Hk1 Hnd]. apply Forall_cons in Hk as [Hv Hk].
      apply variable_name_inv in Hv as (v & Hkv & Hv). simpl in Hkv. subst k.
      cbn [foldl].
      change (mark_entry (substituted d false s) ([v], val))
        with (mark v (str_eqb val s_T) false (substituted d false s)).
      rewrite mark_substituted; try done.
      + rewrite IH; try done.
        * apply substituted_ext. intros c _. unfold update. rewrite truth_cons. simpl.
          rewrite (N.eqb_sym v c), andb_true_r.
          destruct (N.eqb_spec c v) as [->|]; [|done].
          rewrite Hfresh; [done|left].
        * intros c b. unfold update. destruct (N.eqb_spec c v) as [->|]; [done|apply Hd].
        * intros c Hc. unfold update. destruct (N.eqb_spec c v) as [->|]; [done|].
          apply Hfresh. by right.
      + apply Hfresh. left.
      + intros c b Hc. apply is_variable_word. by apply (Hd c b). }
  rewrite <- (substituted_nothing s false). by rewrite G.
Qed.





(** ** What the views show for a formula with explicit grouping *)

Lemma elem_of_operand (f : form) (c : N) : c ∈ render f → c ∈ operand f.
Proof.
  destruct f; try done; intros H; unfold operand;
    rewrite !elem_of_app; right; by left.
Qed.

Lemma render_variable (f : form) : ∃ v, char_of v ∈ render f.
Proof.
  induction f as [v|f [v IH]|f [v IH] g _|f [v IH] g _|f [v IH] g _|f [v IH] g _];
    exists v.
  - left.
  - change (render (Not f)) with ([c_not] ++ operand f).
    apply elem_of_app. right. by apply elem_of_operand.
  - change (render (And f g)) with (operand f ++ [c_and] ++ operand g).
    apply elem_of_app. left. by apply elem_of_operand.
  - change (render (Or f g)) with (operand f ++ [c_or] ++ operand g).
    apply elem_of_app. left. by apply elem_of_operand.
  - change (render (Implies f g)) with (operand f ++ [c_imp] ++ operand g).
    apply elem_of_app. left. by apply elem_of_operand.
  - change (render (Iff f g)) with (operand f ++ [c_iff] ++ operand g).
    apply elem_of_app. left. by apply elem_of_operand.
Qed.

(** The reading of a formula depends on the variables of its text only. *)
Lemma holds_ext (a a' : N → bool) (f : form) :
  (∀ c, c ∈ render f → is_variable c = true → a c = a' c) →
  holds a f = holds a' f.
Proof.
  assert (Hbin : ∀ (op : N) (f g : form),
    (∀ c, c ∈ operand f ++ [op] ++ operand g → is_variable c = true → a c = a' c) →
    (∀ c, c ∈ render f → is_variable c = true → a c = a' c) ∧
    (∀ c, c ∈ render g → is_variable c = true → a c = a' c)).
  { intros op f1 g1 H. split; intros c Hc; apply H; rewrite !elem_of_app.
    - left. by apply elem_of_operand.
    - right. right. by apply elem_of_operand. }
  induction f as [v|f IH|f IHf g IHg|f IHf g IHg|f IHf g IHg|f IHf g IHg];
    intros H; cbn [holds].
  - apply H; [left|apply is_variable_char_of].
  - f_equal. apply IH. intros c Hc. apply H.
    change (render (Not f)) with ([c_not] ++ operand f).
    apply elem_of_app. right. by apply elem_of_operand.
  - destruct (Hbin c_and f g H) as [Hf Hg]. by rewrite IHf, IHg.
  - destruct (Hbin c_or f g H) as [Hf Hg]. by rewrite IHf, IHg.
  - destruct (Hbin c_imp f g H) as [Hf Hg]. by rewrite IHf, IHg.
  - destruct (Hbin c_iff f g H) as [Hf Hg]. by rewrite IHf, IHg.
Qed.

(** A row of the enumeration gives a value to every variable of a text whose
    variables are among those enumerated. *)
Lemma combination_covers (variables : list str) (combo : dict) (s : str) :
  NoDup variables →
  combo ∈ generate_truth_combinations variables →
  (∀ c, c ∈ s → is_variable c = true → [c] ∈ variables) →
  covers combo s.
Proof.
  intros Hnd Hc Hin c Hcs Hv. unfold generate_truth_combinations in Hc.
  apply list_elem_of_fmap in Hc as (i & -> & _).
  destruct (dict_get _ [c]) as [val|] eqn:E; [by eexists|].
  apply dict_get_None in E. rewrite combination_keys in E by done.
  destruct E. by apply Hin.
Qed.

Lemma evaluate_rows_render (f : form) (combinations : list dict) :
  Forall assignment combinations →
  Forall (fun combo => covers combo (render f)) combinations →
  evaluate_rows (render f) combinations
  = Returns ((fun combo => letter (holds (valuation combo) f)) <$> combinations).
Proof.
  induction 1 as [|combo rest Ha _ IH]; intros Hc; [done|].
  apply Forall_cons in Hc as [Hc Hcs]. cbn [evaluate_rows].
  rewrite evaluate_wellspaced by (done || apply wellspaced_render).
  rewrite py_parse_render. cbn [verdict]. rewrite py_value_python_tree.
  by rewrite (IH Hcs).
Qed.

(** Every valuation of the variables is that of a row. *)
Lemma every_valuation_a_row (variables : list str) (a : N → bool) :
  NoDup variables →
  ∃ combo, combo ∈ generate_truth_combinations variables ∧
    ∀ c, [c] ∈ variables → valuation combo c = a c.
Proof.
  intros Hnd. exists (assignment_of (fun v => a (hd 0 v)) variables). split.
  - apply list_elem_of_lookup.
    exists (row_number ((fun v => a (hd 0 v)) <$> variables)).
    rewrite lookup_generate_truth_combinations.
    + by rewrite combination_assignment_of.
    + rewrite <- (length_fmap (fun v => a (hd 0 v)) variables). apply row_number_lt.
  - intros c Hc. apply valuation_letter. apply dict_get_elem.
    + unfold assignment_of. rewrite <- list_fmap_compose.
      change (NoDup (id <$> variables)). by rewrite list_fmap_id.
    + unfold assignment_of. apply list_elem_of_fmap. by exists [c].
Qed.

(** The rows of a formula whose variables are all enumerated: a property of
    the reading holds on every row exactly when it holds under every
    valuation. *)
Lemma rows_all_valuations (f : form) (variables : list str) (P : bool → Prop) :
  NoDup variables →
  (∀ c, c ∈ render f → is_variable c = true → [c] ∈ variables) →
  (∀ combo, combo ∈ generate_truth_combinations variables →
     P (holds (valuation combo) f))
  ↔ (∀ a, P (holds a f)).
Proof.
  intros Hnd Hin. split; [|by intros H combo _].
  intros H a. destruct (every_valuation_a_row variables a Hnd) as (combo & Hc & Hv).
  rewrite <- (holds_ext (valuation combo) a f); [by apply H|].
  intros c Hcf Hvar. apply Hv. by apply Hin.
Qed.

Lemma forallb_letters (bs : list bool) :
  forallb (fun res => str_eqb res s_T) (letter <$> bs) = forallb id bs ∧
  forallb (fun res => str_eqb res s_F) (letter <$> bs) = forallb negb bs.
Proof.
  induction bs as [|b bs [IH1 IH2]]; [done|].
  rewrite fmap_cons. cbn [forallb]. rewrite IH1, IH2. by destruct b.
Qed.

Lemma forallb_id_cases (bs : list bool) :
  if forallb id bs then ∀ b, b ∈ bs → b = true else false ∈ bs.
Proof.
  induction bs as [|b bs IH]; simpl.
  - intros b Hb. by apply elem_of_nil in Hb.
  - destruct b; simpl.
    + destruct (forallb id bs).
      * intros b Hb. apply elem_of_cons in Hb as [->|Hb]; [done|by apply IH].
      * by right.
    + left.
Qed.

Lemma forallb_negb_cases (bs : list bool) :
  if forallb negb bs then ∀ b, b ∈ bs → b = false else true ∈ bs.
Proof.
  induction bs as [|b bs IH]; simpl.
  - intros b Hb. by apply elem_of_nil in Hb.
  - destruct b; simpl.
    + left.
    + destruct (forallb negb bs).
      * intros b Hb. apply elem_of_cons in Hb as [->|Hb]; [done|by apply IH].
      * by right.
Qed.

(** The formula type of a column of letters. *)
Lemma classify_letters (bs : list bool) :
  bs ≠ [] →
  (classify (letter <$> bs) = Tautology ↔ ∀ b, b ∈ bs → b = true) ∧
  (classify (letter <$> bs) = Contradiction ↔ ∀ b, b ∈ bs → b = false) ∧
  (classify (letter <$> bs) = Contingent ↔ true ∈ bs ∧ false ∈ bs).
Proof.
  intros Hne. unfold classify.
  destruct (forallb_letters bs) as [-> ->].
  pose proof (forallb_id_cases bs) as HT. pose proof (forallb_negb_cases bs) as HF.
  destruct bs as [|b0 bs]; [done|].
  assert (H0 : b0 ∈ b0 :: bs) by left.
  destruct (forallb id (b0 :: bs)), (forallb negb (b0 :: bs)).
  - specialize (HT b0 H0). specialize (HF b0 H0). congruence.
  - split_and!; split; try done.
    + intros H. specialize (H true HF). done.
    + intros [_ H]. specialize (HT false H). done.
  - split_and!; split; try done.
    + intros H. specialize (H false HT). done.
    + intros [H _]. specialize (HF true H). done.
  - split_and!; split; try done.
    + intros H. specialize (H false HT). done.
    + intros H. specialize (H true HF). done.
Qed.

(** What the table view shows when every row evaluates. *)
Lemma truth_table_generator_rows (formula : str) (results : list str) :
  extract_variables formula ≠ [] →
  evaluate_rows formula (generate_truth_combinations (extract_variables formula))
  = Returns results →
  ∃ tt, truth_table_generator formula = Shown tt ∧
    tt_combinations tt = generate_truth_combinations (extract_variables formula) ∧
    tt_results tt = results ∧
    tt_formula_type tt = classify results.
Proof.
  intros Hne Hr. unfold truth_table_generator.
  destruct formula as [|c0 f0]; [by rewrite extract_variables_none in Hne|].
  revert Hne Hr. generalize (extract_variables (c0 :: f0)). intros [|v vs] Hne Hr; [done|].
  rewrite Hr. eexists. split; [done|]. done.
Qed.

Lemma variables_enumerated (f : form) (c : N) :
  c ∈ render f → is_variable c = true → [c] ∈ extract_variables (render f).
Proof. intros Hc Hv. apply elem_of_extract_variables. by exists c. Qed.


(** What the equivalence view shows when both texts evaluate on every row. *)
Lemma formula_equivalence_rows (formula1 formula2 : str) (results1 results2 : list str) :
  formula1 ≠ [] → formula2 ≠ [] →
  evaluate_rows formula1
    (generate_truth_combinations (extract_variables (formula1 ++ formula2)))
  = Returns results1 →
  evaluate_rows formula2
    (generate_truth_combinations (extract_variables (formula1 ++ formula2)))
  = Returns results2 →
  ∃ rep, formula_equivalence formula1 formula2 = Shown rep ∧
    er_combinations rep
      = generate_truth_combinations (extract_variables (formula1 ++ formula2)) ∧
    er_results1 rep = results1 ∧ er_results2 rep = results2.
Proof.
  intros H1 H2 Hr1 Hr2. unfold formula_equivalence.
  destruct formula1 as [|c1 f1]; [done|]. destruct formula2 as [|c2 f2]; [done|].
  rewrite all_vars_concat, Hr1, Hr2.
  destruct (compare_rows _ _ _ _) as [table_data differences].
  eexists. split; [done|]. done.
Qed.

Lemma fmap_letters_eq (F G : dict → bool) (combinations : list dict) :
  letter ∘ F <$> combinations = letter ∘ G <$> combinations
  ↔ ∀ combo, combo ∈ combinations → F combo = G combo.
Proof.
  induction combinations as [|combo rest IH]; simpl.
  - split; [|done]. intros _ combo Hc. by apply elem_of_nil in Hc.
  - split.
    + intros [= Hh Ht] combo' Hc. apply letter_inj in Hh.
      apply elem_of_cons in Hc as [->|Hc]; [done|]. by apply IH.
    + intros H. f_equal.
      * f_equal. apply H. left.
      * apply IH. intros combo' Hc. apply H. by right.
Qed.


(** ** The columns of a row *)

Lemma zip_with_rows (formula : str) (combinations : list dict) (results : list str)
    (variables : list str) :
  Forall (fun combo => combo.*1 = variables) combinations →
  formula ∉ variables →
  zip_with (fun combo res => dict_set formula res combo) combinations results
  = zip_with (fun combo res => combo ++ [(formula, res)]) combinations results.
Proof.
  intros Hk Hf. revert results.
  induction Hk as [|combo rest Hc _ IH]; intros [|res results]; try done.
  simpl. rewrite IH. f_equal. apply dict_set_fresh. by rewrite Hc.
Qed.

Lemma combinations_keys (variables : list str) :
  NoDup variables →
  Forall (fun combo => combo.*1 = variables) (generate_truth_combinations variables).
Proof.
  intros Hnd. apply Forall_forall. intros combo Hc.
  unfold generate_truth_combinations in Hc.
  apply list_elem_of_fmap in Hc as (i & -> & _). by apply combination_keys.
Qed.

(** X14. The result of a row is stored under the text of the formula, after
    the columns of the variables: each row of the table is the assignment
    followed by one entry, the formula with its result.  Only when the text
    is itself the name of a variable does the assignment of that key hit the
    variable's own column, and the table then has no column of results: its
    rows are the assignments as they are. *)
Theorem table_row_columns (formula : str) (tt : truth_table) :
  truth_table_generator formula = Shown tt →
  (formula ∉ tt_variables tt →
   tt_table_data tt
   = zip_with (fun combo res => combo ++ [(formula, res)])
              (tt_combinations tt) (tt_results tt)) ∧
  (formula ∈ tt_variables tt → tt_table_data tt = tt_combinations tt).
Proof.
  intros H. pose proof H as H'.
  apply truth_table_generator_Shown in H' as (_ & _ & Hv & Hc & _ & Hd & _).
  split.
  - intros Hf. rewrite Hd. apply (zip_with_rows _ _ _ (tt_variables tt)); [|done].
    rewrite Hc, Hv. apply combinations_keys, NoDup_extract_variables.
  - intros Hf. rewrite Hv in Hf.
    apply elem_of_extract_variables in Hf as (c & -> & Hvar & _).
    destruct (is_variable_cases c Hvar) as [->|[->|[->| ->]]];
      vm_compute in H; injection H as <-; reflexivity.
Qed.

Lemma table_row_columns_witness :
  ∃ tt, truth_table_generator (u "p→q") = Shown tt ∧
    (u "p→q" ∉ tt_variables tt) ∧
    tt_table_data tt !! 1%nat
    = Some [(u "p", s_F); (u "q", s_T); (u "p→q", s_T)].
Proof.
  eexists. split; [vm_compute; reflexivity|].
  match goal with
  | |- (_ ∉ tt_variables ?t) ∧ _ =>
      assert (H : truth_table_generator (u "p→q") = Shown t)
        by (vm_compute; reflexivity);
      assert (Hf : u "p→q" ∉ tt_variables t)
  end.
  { cbn [tt_variables]. intros Hin.
    repeat (apply elem_of_cons in Hin as [Hin|Hin]; [discriminate|]).
    by apply elem_of_nil in Hin. }
  split; [exact Hf|].
  rewrite (proj1 (table_row_columns (u "p→q") _ H) Hf). reflexivity.
Defined.

(** ** A blank text in the equivalence view *)

Lemma blank_wellspaced (s : str) (pv : bool) :
  Forall (fun c => c = 32 ∨ c = 9) s → wellspaced pv s = true.
Proof.
  intros H. revert pv. induction H as [|c s Hc _ IH]; intros pv; [done|].
  cbn [wellspaced]. rewrite IH. destruct Hc as [-> | ->]; by destruct pv.
Qed.

Lemma blank_tokens (a : N → bool) (s : str) :
  Forall (fun c => c = 32 ∨ c = 9) s → s ≫= char_tokens a = [].
Proof.
  induction 1 as [|c s Hc _ IH]; [done|].
  rewrite bind_cons, IH. by destruct Hc as [-> | ->].
Qed.

Lemma blank_no_variable (s : str) (c : N) :
  Forall (fun c => c = 32 ∨ c = 9) s → c ∈ s → is_variable c = false.
Proof.
  intros H Hc. rewrite Forall_forall in H. by destruct (H c Hc) as [-> | ->].
Qed.

(** X15. In the equivalence view a first text of blanks (spaces and tabs)
    is no missing input: the guard lets it through, its evaluation on the
    first row fails, and the view shows the format error, whatever the
    second text is. *)
Theorem equivalence_blank_text (formula1 formula2 : str) :
  formula1 ≠ [] → Forall (fun c => c = 32 ∨ c = 9) formula1 → formula2 ≠ [] →
  formula_equivalence formula1 formula2 = ErrorShown FormatError.
Proof.
  intros H1 Hb H2. unfold formula_equivalence.
  destruct formula1 as [|c1 f1]; [done|]. destruct formula2 as [|c2 f2]; [done|].
  rewrite all_vars_concat.
  set (variables := extract_variables ((c1 :: f1) ++ c2 :: f2)).
  destruct (generate_truth_combinations_cons variables) as (combo & rest & Hg).
  pose proof (combinations_assignments variables
                (NoDup_extract_variables _) (extract_variables_names _)) as Ha.
  rewrite Hg in Ha |- *. apply Forall_cons in Ha as [Ha _].
  cbn [evaluate_rows].
  rewrite evaluate_wellspaced; [|done|by apply blank_wellspaced|].
  - by rewrite blank_tokens.
  - intros c Hc Hv. by rewrite (blank_no_variable _ c Hb Hc) in Hv.
Qed.

Lemma equivalence_blank_text_witness :
  formula_equivalence (u "  ") (u "p∨q") = ErrorShown FormatError.
Proof.
  apply (equivalence_blank_text (u "  ") (u "p∨q")); [done| |done].
  repeat constructor.
Defined.
